(** * dairlib: the point-to-point distance constraint evaluator

    A shallow embedding of [multibody/kinematic/distance_evaluator.cc]
    ([DistanceEvaluator<T>]) together with the properties its
    specification states about the residual, the Jacobian and the bias
    term [Jdot * v], and of the wrapper script around bazel.

    The class is a template over the scalar type [T]; the embedding is
    generic over a [Scalar] structure.  The source instantiates [T] with
    [double]: the statements about values are made in IEEE-754 binary64,
    where every operation rounds.  The real numbers serve for two
    statements about the bias formula as an expression. *)
From Stdlib Require Import List Arith Lia Reals Lra Psatz Floats.
From Stdlib Require Ascii String QArith.
Import ListNotations.

Set Implicit Arguments.

(** * Scalars *)

(** What the templates require of [T]: the field operations, a square
    root, and the conversion [cast<T>()] from the [double] in which the
    evaluator stores its constants. *)
Class Scalar (T : Type) : Type := {
  double : Type;
  cast : double -> T;
  zero : T;
  add : T -> T -> T;
  sub : T -> T -> T;
  mul : T -> T -> T;
  div : T -> T -> T;
  sqrt : T -> T
}.

(** The real numbers: [T] without rounding.  The source instantiates
    [T] with [double] and with Drake's automatic-differentiation scalar,
    not with these; they serve where a statement is about the bias
    formula as an expression. *)
#[export] Instance Scalar_R : Scalar R := {|
  double := R;
  cast := fun x => x;
  zero := 0%R;
  add := Rplus;
  sub := Rminus;
  mul := Rmult;
  div := Rdiv;
  sqrt := R_sqrt.sqrt
|}.

(** [T = double]: IEEE-754 binary64, round to nearest even. *)
#[export] Instance Scalar_binary64 : Scalar float := {|
  double := float;
  cast := fun x => x;
  zero := 0%float;
  add := PrimFloat.add;
  sub := PrimFloat.sub;
  mul := PrimFloat.mul;
  div := PrimFloat.div;
  sqrt := PrimFloat.sqrt
|}.

(** * Eigen: the dense vector and matrix operations the evaluator uses *)

Module Eigen.

(** [Vector3<T>]: the size is part of the type. *)
Definition Vector3 (T : Type) : Type := (T * T * T)%type.
(** [VectorX<T>]: the size is a run-time value. *)
Definition VectorX (T : Type) : Type := list T.
(** [MatrixX<T>]: the list of its rows. *)
Definition MatrixX (T : Type) : Type := list (list T).

Section Dense.
Context {T : Type} `{Scalar T}.

(** Assigning a [Vector3] to a [VectorX] of size 3. *)
Definition to_VectorX (p : Vector3 T) : VectorX T :=
  let '(x, y, z) := p in [x; y; z].

Definition rows (M : MatrixX T) : nat := length M.
Definition cols (M : MatrixX T) : nat := length (hd [] M).

(** [coeff i] of a [Vector3]. *)
Definition coeff3 (p : Vector3 T) (i : nat) : T :=
  let '(x, y, z) := p in
  match i with 0 => x | 1 => y | _ => z end.

(** A matrix of shape [3 x n] whose [j]-th column is [c j]: the buffer
    [MatrixX<T> J(3, n)] once the engine has written into it. *)
Definition filled (n : nat) (c : nat -> Vector3 T) : MatrixX T :=
  map (fun i => map (fun j => coeff3 (c j) i) (seq 0 n)) (seq 0 3).

(** [a - b], coefficient-wise. *)
Definition vsub (a b : VectorX T) : VectorX T :=
  map (fun p => sub (fst p) (snd p)) (combine a b).

(** [A - B], coefficient-wise. *)
Definition msub (A B : MatrixX T) : MatrixX T :=
  map (fun p => vsub (fst p) (snd p)) (combine A B).

(** [.sum()]: the reduction of the coefficients, in index order. *)
Definition sum (l : list T) : T :=
  match l with
  | [] => zero
  | x :: l' => fold_left add l' x
  end.

(** [a.dot(b)] for real scalars. *)
Definition dot (a b : VectorX T) : T :=
  sum (map (fun p => mul (fst p) (snd p)) (combine a b)).

(** [a.squaredNorm()] and [a.norm()]. *)
Definition squaredNorm (a : VectorX T) : T :=
  sum (map (fun x => mul x x) a).
Definition norm (a : VectorX T) : T := sqrt (squaredNorm a).

(** [a.transpose()] of a column vector: one row. *)
Definition transpose (a : VectorX T) : MatrixX T := [a].

(** Column [j] of a matrix. *)
Definition col (j : nat) (M : MatrixX T) : VectorX T :=
  map (fun r => nth j r zero) M.

(** [A * B]: entry [(i, j)] is the dot product of row [i] of [A] and
    column [j] of [B]. *)
Definition mmul (A B : MatrixX T) : MatrixX T :=
  map (fun r => map (fun j => dot r (col j B)) (seq 0 (cols B))) A.

(** [M * v] for a column vector [v]. *)
Definition mvmul (M : MatrixX T) (v : VectorX T) : VectorX T :=
  map (fun r => dot r v) M.

(** [M / s]. *)
Definition mdiv (M : MatrixX T) (s : T) : MatrixX T :=
  map (map (fun x => div x s)) M.

(** The coefficients of a row-vector expression, as [J.dot(v)] reads
    them. *)
Definition as_vector (M : MatrixX T) : VectorX T := concat M.
End Dense.
End Eigen.
Import Eigen.

(** * The dynamics engine, at its interface *)

(** [drake::multibody::JacobianWrtVariable]. *)
Inductive JacobianWrtVariable : Type := kQDot | kV.

Section Engine.
Variable T : Type.
(** [drake::systems::Context<T>] and [drake::multibody::Frame<T>]. *)
Variables Context Frame : Type.

(** [drake::multibody::SpatialAcceleration<T>]. *)
Record SpatialAcceleration : Type := {
  rotational : Vector3 T;
  translational : Vector3 T
}.

(** The queries of [drake::multibody::MultibodyPlant<T>] the evaluator
    consumes.  A query with an output parameter is given by what it
    writes: [CalcPointsPositions] the single point, and
    [CalcJacobianTranslationalVelocity] column [j] of the [3 x nv]
    Jacobian; the caller allocates the buffer.  The arguments are in
    Drake's order.  For a position: the frame the point is fixed to, the
    point in that frame, the frame the result is expressed in.  For the
    Jacobian and the bias: the frame the point is fixed to, the point,
    the frame the velocity is measured in, the frame the result is
    expressed in. *)
Record MultibodyPlant : Type := {
  num_velocities : nat;
  world_frame : Frame;
  CalcPointsPositions :
    Context -> Frame -> Vector3 T -> Frame -> Vector3 T;
  CalcJacobianTranslationalVelocity :
    Context -> JacobianWrtVariable -> Frame -> Vector3 T ->
    Frame -> Frame -> nat -> Vector3 T;
  CalcBiasSpatialAcceleration :
    Context -> JacobianWrtVariable -> Frame -> Vector3 T ->
    Frame -> Frame -> SpatialAcceleration;
  GetVelocities : Context -> VectorX T
}.
End Engine.

(** * The evaluator *)

Section Evaluator.
Variable T : Type.
Context `{Scalar T}.
Variables Context Frame : Type.

(** Modelled from the spec: the abstract evaluator
    [KinematicEvaluator<T>], whose declaration is not among the sources.
    It holds the reference to the model it operates over and [length],
    the number of rows the evaluator contributes, both given to its
    constructor. *)
Record KinematicEvaluator : Type := {
  plant_ : MultibodyPlant T Context Frame;
  length_ : nat
}.

(** The data members of [DistanceEvaluator<T>]; the points and the
    target distance are stored as [double]. *)
Record DistanceEvaluator : Type := {
  base : KinematicEvaluator;
  pt_A_ : Vector3 double;
  frame_A_ : Frame;
  pt_B_ : Vector3 double;
  frame_B_ : Frame;
  distance_ : double
}.

(** The constructor: the base is built with the literal row count 1. *)
Definition new_DistanceEvaluator
    (plant : MultibodyPlant T Context Frame)
    (pt_A : Vector3 double) (frame_A : Frame)
    (pt_B : Vector3 double) (frame_B : Frame)
    (distance : double) : DistanceEvaluator :=
  {| base := {| plant_ := plant; length_ := 1 |};
     pt_A_ := pt_A;
     frame_A_ := frame_A;
     pt_B_ := pt_B;
     frame_B_ := frame_B;
     distance_ := distance |}.

(** [plant()]. *)
Definition plant (e : DistanceEvaluator) : MultibodyPlant T Context Frame :=
  plant_ (base e).

(** [p.template cast<T>()]. *)
Definition cast3 (p : Vector3 double) : Vector3 T :=
  let '(x, y, z) := p in (cast x, cast y, cast z).

(** ** Method calls

    What a call can reach: the evaluator object and the context it is
    handed by reference.  A method is a state transformer over the two;
    [this] and [arg] are the reads. *)
Record Machine : Type := {
  self : DistanceEvaluator;
  context : Context
}.

Definition Method (A : Type) : Type := Machine -> A * Machine.

Definition ret {A : Type} (a : A) : Method A := fun m => (a, m).

Definition bind {A B : Type} (c : Method A) (k : A -> Method B)
    : Method B :=
  fun m => let (a, m') := c m in k a m'.

Definition this {A : Type} (member : DistanceEvaluator -> A) : Method A :=
  fun m => (member (self m), m).

Definition arg : Method Context := fun m => (context m, m).

Local Notation "x <- c ;; k" := (bind c (fun x => k))
  (at level 61, c at next level, right associativity).

(** [DistanceEvaluator<T>::EvalFull]. *)
Definition EvalFull : Method (VectorX T) :=
  context <- arg ;;
  plant <- this plant ;;
  pt_A_ <- this pt_A_ ;;
  frame_A_ <- this frame_A_ ;;
  pt_B_ <- this pt_B_ ;;
  frame_B_ <- this frame_B_ ;;
  distance_ <- this distance_ ;;
  (* Transform point A to frame B, and compute norm *)
  let pt_A_B :=
    to_VectorX (CalcPointsPositions plant context frame_A_
                  (cast3 pt_A_) frame_B_) in
  let rel_pos := vsub pt_A_B (to_VectorX (cast3 pt_B_)) in
  let difference := [sub (norm rel_pos) (cast distance_)] in
  ret difference.

(** [DistanceEvaluator<T>::EvalFullJacobian]. *)
Definition EvalFullJacobian : Method (MatrixX T) :=
  context <- arg ;;
  plant <- this plant ;;
  pt_A_ <- this pt_A_ ;;
  frame_A_ <- this frame_A_ ;;
  pt_B_ <- this pt_B_ ;;
  frame_B_ <- this frame_B_ ;;
  let pt_A_B :=
    to_VectorX (CalcPointsPositions plant context frame_A_
                  (cast3 pt_A_) frame_B_) in
  let rel_pos := vsub pt_A_B (to_VectorX (cast3 pt_B_)) in
  let J_A :=
    filled (num_velocities plant)
      (CalcJacobianTranslationalVelocity plant context kV
         frame_A_ (cast3 pt_A_) frame_B_ frame_B_) in
  ret (mdiv (mmul (transpose rel_pos) J_A) (norm rel_pos)).

(** [DistanceEvaluator<T>::EvalFullJacobianDotTimesV], up to the local
    [J]: the Jacobian of the constraint formed from the world-frame
    positions and Jacobians. *)
Definition EvalFullJacobianDotTimesV_J : Method (MatrixX T) :=
  context <- arg ;;
  plant <- this plant ;;
  pt_A_ <- this pt_A_ ;;
  frame_A_ <- this frame_A_ ;;
  pt_B_ <- this pt_B_ ;;
  frame_B_ <- this frame_B_ ;;
  let world := world_frame plant in
  let pt_A_cast := cast3 pt_A_ in
  let pt_B_cast := cast3 pt_B_ in
  let pt_A_world :=
    to_VectorX (CalcPointsPositions plant context frame_A_
                  pt_A_cast world) in
  let pt_B_world :=
    to_VectorX (CalcPointsPositions plant context frame_B_
                  pt_B_cast world) in
  let rel_pos := vsub pt_A_world pt_B_world in
  let J_A :=
    filled (num_velocities plant)
      (CalcJacobianTranslationalVelocity plant context kV
         frame_A_ pt_A_cast world world) in
  let J_B :=
    filled (num_velocities plant)
      (CalcJacobianTranslationalVelocity plant context kV
         frame_B_ pt_B_cast world world) in
  let J_rel := msub J_A J_B in
  let phi := norm rel_pos in
  let J := mdiv (mmul (transpose rel_pos) J_rel) phi in
  ret J.

(** [DistanceEvaluator<T>::EvalFullJacobianDotTimesV]. *)
Definition EvalFullJacobianDotTimesV : Method (VectorX T) :=
  context <- arg ;;
  plant <- this plant ;;
  pt_A_ <- this pt_A_ ;;
  frame_A_ <- this frame_A_ ;;
  pt_B_ <- this pt_B_ ;;
  frame_B_ <- this frame_B_ ;;
  let world := world_frame plant in
  let pt_A_cast := cast3 pt_A_ in
  let pt_B_cast := cast3 pt_B_ in
  (* Perform all kinematic calculations, finding A, B in world frame,
     Jacobians J_A and J_B, and Jdotv for both A and B *)
  let pt_A_world :=
    to_VectorX (CalcPointsPositions plant context frame_A_
                  pt_A_cast world) in
  let pt_B_world :=
    to_VectorX (CalcPointsPositions plant context frame_B_
                  pt_B_cast world) in
  let rel_pos := vsub pt_A_world pt_B_world in
  let J_A :=
    filled (num_velocities plant)
      (CalcJacobianTranslationalVelocity plant context kV
         frame_A_ pt_A_cast world world) in
  let J_B :=
    filled (num_velocities plant)
      (CalcJacobianTranslationalVelocity plant context kV
         frame_B_ pt_B_cast world world) in
  let J_rel := msub J_A J_B in
  let J_A_dot_times_v :=
    to_VectorX (translational
      (CalcBiasSpatialAcceleration plant context kV
         frame_A_ pt_A_cast world world)) in
  let J_B_dot_times_v :=
    to_VectorX (translational
      (CalcBiasSpatialAcceleration plant context kV
         frame_B_ pt_B_cast world world)) in
  let J_rel_dot_times_v := vsub J_A_dot_times_v J_B_dot_times_v in
  let phi := norm rel_pos in
  (* Jacobian for total constraint *)
  let J := mdiv (mmul (transpose rel_pos) J_rel) phi in
  let phidot := dot (as_vector J) (GetVelocities plant context) in
  (* Compute (J_A - J_B) * v, as this is used multiple times *)
  let J_rel_v := mvmul J_rel (GetVelocities plant context) in
  (* Compute all terms as scalars using dot products *)
  let J_dot_times_v :=
    [sub (add (div (squaredNorm J_rel_v) phi)
              (div (dot rel_pos J_rel_dot_times_v) phi))
         (div (mul phidot (dot rel_pos J_rel_v)) (mul phi phi))] in
  ret J_dot_times_v.

(** The value a call returns on evaluator [e] and context [c]. *)
Definition call {A : Type} (m : Method A)
    (e : DistanceEvaluator) (c : Context) : A :=
  fst (m {| self := e; context := c |}).

(** ** The locals, as functions of the evaluator and the context *)

(** [rel_pos] in [EvalFull] and [EvalFullJacobian]: point A in the
    coordinates of frame B, less point B. *)
Definition rel_pos_B (e : DistanceEvaluator) (c : Context) : VectorX T :=
  vsub (to_VectorX (CalcPointsPositions (plant e) c (frame_A_ e)
                      (cast3 (pt_A_ e)) (frame_B_ e)))
       (to_VectorX (cast3 (pt_B_ e))).

(** [rel_pos] in [EvalFullJacobianDotTimesV]: the two points in the
    world, A less B. *)
Definition rel_pos_W (e : DistanceEvaluator) (c : Context) : VectorX T :=
  vsub (to_VectorX (CalcPointsPositions (plant e) c (frame_A_ e)
                      (cast3 (pt_A_ e)) (world_frame (plant e))))
       (to_VectorX (CalcPointsPositions (plant e) c (frame_B_ e)
                      (cast3 (pt_B_ e)) (world_frame (plant e)))).

(** [J_rel] and [J_rel_dot_times_v] in [EvalFullJacobianDotTimesV]. *)
Definition J_rel_W (e : DistanceEvaluator) (c : Context) : MatrixX T :=
  msub
    (filled (num_velocities (plant e))
       (CalcJacobianTranslationalVelocity (plant e) c kV
          (frame_A_ e) (cast3 (pt_A_ e))
          (world_frame (plant e)) (world_frame (plant e))))
    (filled (num_velocities (plant e))
       (CalcJacobianTranslationalVelocity (plant e) c kV
          (frame_B_ e) (cast3 (pt_B_ e))
          (world_frame (plant e)) (world_frame (plant e)))).

Definition J_rel_dot_times_v_W (e : DistanceEvaluator) (c : Context)
    : VectorX T :=
  vsub
    (to_VectorX (translational
       (CalcBiasSpatialAcceleration (plant e) c kV
          (frame_A_ e) (cast3 (pt_A_ e))
          (world_frame (plant e)) (world_frame (plant e)))))
    (to_VectorX (translational
       (CalcBiasSpatialAcceleration (plant e) c kV
          (frame_B_ e) (cast3 (pt_B_ e))
          (world_frame (plant e)) (world_frame (plant e))))).
End Evaluator.

Arguments KinematicEvaluator T Context Frame : clear implicits.
Arguments DistanceEvaluator T {H} Context Frame.
Arguments Machine T {H} Context Frame.
Arguments Method T {H} Context Frame A.
Arguments EvalFull {T H Context Frame} _.
Arguments EvalFullJacobian {T H Context Frame} _.
Arguments EvalFullJacobianDotTimesV_J {T H Context Frame} _.
Arguments EvalFullJacobianDotTimesV {T H Context Frame} _.

(** * Three-dimensional geometry over the reals

    The vocabulary in which the bias formula of the specification is
    compared with the method. *)

Module R3.
Local Open Scope R_scope.

Definition vec : Type := Vector3 R.
(** A [3 x 3] matrix, by rows. *)
Definition mat : Type := (vec * vec * vec)%type.

Definition O : vec := (0, 0, 0).

Definition plus (a b : vec) : vec :=
  let '(a1, a2, a3) := a in let '(b1, b2, b3) := b in
  (a1 + b1, a2 + b2, a3 + b3).

Definition minus (a b : vec) : vec :=
  let '(a1, a2, a3) := a in let '(b1, b2, b3) := b in
  (a1 - b1, a2 - b2, a3 - b3).

Definition scale (s : R) (a : vec) : vec :=
  let '(a1, a2, a3) := a in (s * a1, s * a2, s * a3).

Definition inner (a b : vec) : R :=
  let '(a1, a2, a3) := a in let '(b1, b2, b3) := b in
  a1 * b1 + a2 * b2 + a3 * b3.

Definition cross (a b : vec) : vec :=
  let '(a1, a2, a3) := a in let '(b1, b2, b3) := b in
  (a2 * b3 - a3 * b2, a3 * b1 - a1 * b3, a1 * b2 - a2 * b1).

Definition length (a : vec) : R := R_sqrt.sqrt (inner a a).

Definition I : mat := ((1, 0, 0), (0, 1, 0), (0, 0, 1)).

Definition transp (M : mat) : mat :=
  let '((m11, m12, m13), (m21, m22, m23), (m31, m32, m33)) := M in
  ((m11, m21, m31), (m12, m22, m32), (m13, m23, m33)).

(** [M x]. *)
Definition apply (M : mat) (x : vec) : vec :=
  let '(r1, r2, r3) := M in (inner r1 x, inner r2 x, inner r3 x).

End R3.

(** * The engine's world-frame answers *)

Section WorldQueries.
Variables Context Frame : Type.
Variable P : MultibodyPlant R Context Frame.

(** The position in the world of the point [p] fixed to [F], and column
    [j] of the Jacobian of its velocity in the world. *)
Definition world_position (c : Context) (F : Frame) (p : R3.vec)
    : R3.vec :=
  CalcPointsPositions P c F p (world_frame P).

Definition world_jacobian (c : Context) (F : Frame) (p : R3.vec)
    (j : nat) : R3.vec :=
  CalcJacobianTranslationalVelocity P c kV F p
    (world_frame P) (world_frame P) j.
End WorldQueries.

(** * The closed forms of the specification *)

Section JacobianForm.
Context {T : Type} `{Scalar T}.

(** The Jacobian in the words of the specification: [Delta^T J_rel /
    |Delta|], with [J_rel = J_A - J_B]. *)
Definition jacobian_formula (Delta : VectorX T) (J_A J_B : MatrixX T)
    : MatrixX T :=
  let J_rel := msub J_A J_B in
  mdiv (mmul (transpose Delta) J_rel) (norm Delta).
End JacobianForm.

Section ClosedForms.
Local Open Scope R_scope.

(** The bias in the words of the specification:
    [|Jv|^2 / phi + Delta^T (a_A - a_B) / phi
     - phidot * Delta^T Jv / phi^2], with [phi = |Delta|],
    [J = J_A - J_B], [Jv = J v] and [phidot = ((Delta^T J) / phi) v]. *)
Definition bias_formula (Delta : VectorX R) (J_A J_B : MatrixX R)
    (a_A a_B v : VectorX R) : R :=
  let phi := norm Delta in
  let J := msub J_A J_B in
  let Jv := mvmul J v in
  let phidot := dot (as_vector (mdiv (mmul (transpose Delta) J) phi)) v in
  (norm Jv) ^ 2 / phi
  + dot Delta (vsub a_A a_B) / phi
  - phidot * dot Delta Jv / phi ^ 2.
End ClosedForms.

(** * Example plants *)

(** One joint over the reals: the link turns about the world's [z] axis
    by the angle [q] and climbs along it by [q]; a state is [(q, v)]. *)
Module Screw.
Local Open Scope R_scope.

Definition State : Type := (R * R)%type.
Inductive Body : Type := World | Link.

Definition Rz (q : R) : R3.mat :=
  ((cos q, - sin q, 0), (sin q, cos q, 0), (0, 0, 1)).

Definition R_W (c : State) (F : Body) : R3.mat :=
  match F with World => R3.I | Link => Rz (fst c) end.

Definition p_W (c : State) (F : Body) : R3.vec :=
  match F with World => R3.O | Link => (0, 0, fst c) end.

Definition Jw_W (c : State) (F : Body) (j : nat) : R3.vec :=
  match F with World => R3.O | Link => (0, 0, 1) end.

(** The Jacobian of the velocity of the origin of [F]. *)
Definition Jv_W (c : State) (F : Body) (j : nat) : R3.vec :=
  match F with World => R3.O | Link => (0, 0, 1) end.

Definition position (c : State) (F : Body) (p : R3.vec) (G : Body)
    : R3.vec :=
  R3.apply (R3.transp (R_W c G))
    (R3.minus (R3.plus (R3.apply (R_W c F) p) (p_W c F)) (p_W c G)).

Definition point_jacobian (c : State) (F : Body) (p : R3.vec) (j : nat)
    : R3.vec :=
  R3.plus (Jv_W c F j) (R3.cross (Jw_W c F j) (R3.apply (R_W c F) p)).

Definition jacobian (c : State) (w : JacobianWrtVariable)
    (F : Body) (p : R3.vec) (A E : Body) (j : nat) : R3.vec :=
  R3.apply (R3.transp (R_W c E))
    (R3.minus
       (R3.minus (point_jacobian c F p j) (point_jacobian c A R3.O j))
       (R3.cross (Jw_W c A j)
          (R3.minus (position c F p World) (position c A R3.O World)))).

(** The centripetal acceleration of the point, in the world. *)
Definition bias (c : State) (w : JacobianWrtVariable)
    (F : Body) (p : R3.vec) (A E : Body) : SpatialAcceleration R :=
  {| rotational := R3.O;
     translational :=
       R3.scale (snd c * snd c)
         (R3.cross (Jw_W c F 0)
            (R3.cross (Jw_W c F 0) (R3.apply (R_W c F) p))) |}.

Definition plant : MultibodyPlant R State Body :=
  {| num_velocities := 1;
     world_frame := World;
     CalcPointsPositions := position;
     CalcJacobianTranslationalVelocity := jacobian;
     CalcBiasSpatialAcceleration := bias;
     GetVelocities := fun c => [snd c] |}.

(** A point on the world's [z] axis at height 2, held one unit away from
    the point [(1, 0, 0)] of the link. *)
Definition evaluator : DistanceEvaluator R State Body :=
  new_DistanceEvaluator plant (0, 0, 2) World (1, 0, 0) Link 1.

(** Passing through angle 0 with unit velocity. *)
Definition moving : State := (0, 1).
End Screw.

(** Two point masses over binary64, each sliding along the world's [x]
    axis with a coordinate of its own; the body frames keep the world's
    orientation.  A state is the pair of the positions and the
    velocities. *)
Module PointMasses.
Local Open Scope float_scope.

Definition State : Type := (list float * list float)%type.
Inductive Body : Type := World | MassA | MassB.

Definition coordinate (F : Body) : option nat :=
  match F with World => None | MassA => Some 0%nat | MassB => Some 1%nat end.

(** Where the origin of [F] is along [x]. *)
Definition offset (c : State) (F : Body) : float :=
  match coordinate F with
  | Some k => nth k (fst c) 0
  | None => 0
  end.

Definition position (c : State) (F : Body) (p : Vector3 float) (G : Body)
    : Vector3 float :=
  let '(x, y, z) := p in (x + offset c F - offset c G, y, z).

Definition point_jacobian (F : Body) (j : nat) : Vector3 float :=
  match coordinate F with
  | Some k => if Nat.eqb j k then (1, 0, 0) else (0, 0, 0)
  | None => (0, 0, 0)
  end.

Definition jacobian (c : State) (w : JacobianWrtVariable)
    (F : Body) (p : Vector3 float) (A E : Body) (j : nat)
    : Vector3 float :=
  let '(a1, a2, a3) := point_jacobian F j in
  let '(b1, b2, b3) := point_jacobian A j in
  (a1 - b1, a2 - b2, a3 - b3).

Definition plant : MultibodyPlant float State Body :=
  {| num_velocities := 2;
     world_frame := World;
     CalcPointsPositions := position;
     CalcJacobianTranslationalVelocity := jacobian;
     CalcBiasSpatialAcceleration :=
       fun _ _ _ _ _ _ =>
         {| rotational := (0, 0, 0); translational := (0, 0, 0) |};
     GetVelocities := fun c => snd c |}.

(** Both frames coincide with the world frame; nothing moves. *)
Definition home : State := ([0; 0], [0; 0]).

(** The scenario of the specification, and the same with point B moved
    to the target separation. *)
Definition apart : DistanceEvaluator float State Body :=
  new_DistanceEvaluator plant (0, 0, 0) MassA (1, 0, 0) MassB 0.5.

Definition at_target : DistanceEvaluator float State Body :=
  new_DistanceEvaluator plant (0, 0, 0) MassA (0.5, 0, 0) MassB 0.5.

(** The degenerate placement: both points at the same place. *)
Definition coincident : DistanceEvaluator float State Body :=
  new_DistanceEvaluator plant (1, 0, 0) MassA (1, 0, 0) MassB 0.5.

(** A separation so small that its square underflows to zero. *)
Definition nearly_coincident : DistanceEvaluator float State Body :=
  new_DistanceEvaluator plant (0x1p-600, 0, 0) MassA (0, 0, 0) MassB 0.5.

(** The binary64 values nearest to 0.1 and to 0.2. *)
Definition tenth : float := 0x1.999999999999ap-4.
Definition fifth : float := 0x1.999999999999ap-3.

(** Mass A a little off the axis, and the masses away from the origin:
    an ordinary placement in which no frame coincides with another. *)
Definition oblique : DistanceEvaluator float State Body :=
  new_DistanceEvaluator plant (tenth, 1, 0) MassA (tenth, 0, 0) MassB 0.5.
Definition displaced : State := ([tenth; fifth], [0; 0]).

(** The same point of mass A, held from a point of the world. *)
Definition anchored : DistanceEvaluator float State Body :=
  new_DistanceEvaluator plant (tenth, 1, 0) MassA (tenth, 0, 0) World 0.5.

(** Two points on the axis, and the same two with the roles of A and B
    exchanged. *)
Definition forth : DistanceEvaluator float State Body :=
  new_DistanceEvaluator plant (tenth, 0, 0) MassA (fifth, 0, 0) MassB 0.5.
Definition back : DistanceEvaluator float State Body :=
  new_DistanceEvaluator plant (fifth, 0, 0) MassB (tenth, 0, 0) MassA 0.5.
Definition spread : State := ([tenth; 1], [0; 0]).

(** Point A at [(7 k, 24 k, 0)] from point B with [k = 31635431], and
    the target distance [25 k]: the separation is the target to the
    last digit, as [7^2 + 24^2 = 25^2]. *)
Definition pythagorean : DistanceEvaluator float State Body :=
  new_DistanceEvaluator plant (221448017, 759250344, 0) MassA
    (0, 0, 0) MassB 790885775.

(** Mass A beyond the largest binary64 number: its position in the
    world is infinite. *)
Definition beyond : DistanceEvaluator float State Body :=
  new_DistanceEvaluator plant (0x1p1023, 0, 0) MassA (0, 0, 0) MassB 0.5.
Definition far_out : State := ([0x1p1023; 0], [0; 0]).
End PointMasses.

(** One slide over binary64, driven along the world's [x] axis through a
    gear: a turn [q] of the drive moves it by [ratio * q].  A state is
    [(q, v)]. *)
Module Geared.
Local Open Scope float_scope.

Definition State : Type := (float * float)%type.
Inductive Body : Type := World | Slide.

Definition ratio : float := 0x1p600.

Definition offset (c : State) (F : Body) : float :=
  match F with World => 0 | Slide => ratio * fst c end.

Definition position (c : State) (F : Body) (p : Vector3 float) (G : Body)
    : Vector3 float :=
  let '(x, y, z) := p in (x + offset c F - offset c G, y, z).

Definition point_jacobian (F : Body) (j : nat) : Vector3 float :=
  match F with World => (0, 0, 0) | Slide => (ratio, 0, 0) end.

Definition jacobian (c : State) (w : JacobianWrtVariable)
    (F : Body) (p : Vector3 float) (A E : Body) (j : nat)
    : Vector3 float :=
  let '(a1, a2, a3) := point_jacobian F j in
  let '(b1, b2, b3) := point_jacobian A j in
  (a1 - b1, a2 - b2, a3 - b3).

Definition plant : MultibodyPlant float State Body :=
  {| num_velocities := 1;
     world_frame := World;
     CalcPointsPositions := position;
     CalcJacobianTranslationalVelocity := jacobian;
     CalcBiasSpatialAcceleration :=
       fun _ _ _ _ _ _ =>
         {| rotational := (0, 0, 0); translational := (0, 0, 0) |};
     GetVelocities := fun c => [snd c] |}.

(** A point of the slide far out along [x], held from the origin of the
    world; the drive at rest at angle 0. *)
Definition evaluator : DistanceEvaluator float State Body :=
  new_DistanceEvaluator plant (0x1p500, 0, 0) Slide (0, 0, 0) World 1.
Definition resting : State := (0, 0).
End Geared.

(** * Predicates on binary64 values *)

Module Binary64.
(** All three coordinates are finite numbers. *)
Definition finite3 (p : Vector3 float) : Prop :=
  let '(x, y, z) := p in
  is_finite x = true /\ is_finite y = true /\ is_finite z = true.

(** A zero of either sign, or a NaN. *)
Definition void (x : float) : Prop :=
  (exists s, Prim2SF x = S754_zero s) \/ Prim2SF x = S754_nan.

(** A zero of either sign. *)
Definition signed_zero (x : float) : Prop := exists s, Prim2SF x = S754_zero s.

Definition signed_zero3 (p : Vector3 float) : Prop :=
  let '(x, y, z) := p in
  signed_zero x /\ signed_zero y /\ signed_zero z.

(** Every coefficient is a finite number. *)
Definition finite_vector (a : VectorX float) : Prop :=
  Forall (fun x => is_finite x = true) a.
Definition finite_matrix (M : MatrixX float) : Prop :=
  Forall finite_vector M.

(** The rational number a finite binary64 value stands for. *)
Definition value (x : float) : QArith_base.Q :=
  match Prim2SF x with
  | S754_finite s m e =>
      QArith_base.Qmult
        (QArith_base.inject_Z (SpecFloat.cond_Zopp s (Zpos m)))
        (QArith_base.Qpower (QArith_base.inject_Z 2) e)
  | _ => QArith_base.inject_Z 0
  end.

(** The square of the Euclidean length of [(x, y, z)], exactly. *)
Definition squared_length (x y z : float) : QArith_base.Q :=
  QArith_base.Qplus
    (QArith_base.Qplus (QArith_base.Qmult (value x) (value x))
                       (QArith_base.Qmult (value y) (value y)))
    (QArith_base.Qmult (value z) (value z)).

Section Engine.
Variables Context Frame : Type.
Variable P : MultibodyPlant float Context Frame.

(** The bias acceleration is quadratic in the velocities: the engine
    returns zeros for it where every generalized velocity is zero. *)
Definition bias_vanishes_at_rest : Prop :=
  forall c F p A E,
    Forall signed_zero (GetVelocities P c) ->
    signed_zero3 (translational (CalcBiasSpatialAcceleration P c kV F p A E)).
End Engine.
End Binary64.

(** * The wrapper script around bazel

    The shell script that stands in for [bazel]: it climbs from the
    working directory to the directory that holds a [WORKSPACE] entry
    and hands over to the real bazel, with the [noros.bazelrc] of that
    directory unless ROS support is switched on.  Shell words are lists
    of characters. *)

Module BazelWrapper.
Import Ascii String.

Definition str : Type := list ascii.
Definition lit (s : string) : str := list_ascii_of_string s.

Definition newline : ascii := "010"%char.
Definition is_slash (a : ascii) : bool := Ascii.eqb a "/"%char.
Definition is_newline (a : ascii) : bool := Ascii.eqb a newline.

Fixpoint drop_while (p : ascii -> bool) (s : str) : str :=
  match s with
  | [] => []
  | a :: s' => if p a then drop_while p s' else s
  end.

(** The [dirname] utility: trailing slashes go, then the last component,
    then the slashes before it; what is left is the result, or [/] when
    only slashes were there, or [.] when there was no slash at all. *)
Definition dirname (s : str) : str :=
  match drop_while is_slash (rev s) with
  | [] => match s with [] => lit "." | _ => lit "/" end
  | r =>
      let r2 := drop_while (fun a => negb (is_slash a)) r in
      match drop_while is_slash r2 with
      | [] => match r2 with [] => lit "." | _ => lit "/" end
      | r3 => rev r3
      end
  end.

(** [$(...)]: the output of the command, less every trailing newline. *)
Definition command_substitution (output : str) : str :=
  rev (drop_while is_newline (rev output)).

(** [$(dirname "${WORKSPACE_DIR}")]; [dirname] prints its result and a
    newline. *)
Definition parent (WORKSPACE_DIR : str) : str :=
  command_substitution (dirname WORKSPACE_DIR ++ [newline]).

Definition str_eqb (a b : str) : bool :=
  if list_eq_dec ascii_dec a b then true else false.

(** The [while] loop, [fuel] rounds of it at most: it stops at [/], or
    where [-e "${WORKSPACE_DIR}/WORKSPACE"] holds. *)
Fixpoint find_workspace (file_exists : str -> bool) (fuel : nat)
    (WORKSPACE_DIR : str) : option str :=
  match fuel with
  | 0 => None
  | S fuel' =>
      if str_eqb WORKSPACE_DIR (lit "/") then Some WORKSPACE_DIR
      else if file_exists (WORKSPACE_DIR ++ lit "/WORKSPACE")
           then Some WORKSPACE_DIR
           else find_workspace file_exists fuel' (parent WORKSPACE_DIR)
  end.

(** What the script reads: four variables (an unset one expands to the
    empty word), its name [$0], its arguments [$@], and the file
    system through [-e]. *)
Record Environment : Type := {
  PWD : str;
  DAIRLIB_WITH_ROS : str;
  BAZEL_REAL : str;
  script_name : str;
  arguments : list str;
  file_exists : str -> bool
}.

(** [exec -a name program arguments]. *)
Record Exec : Type := {
  exec_name : str;
  exec_program : str;
  exec_arguments : list str
}.

(** The script: the command it ends in, if the loop ends within [fuel]
    rounds. *)
Definition script (env : Environment) (fuel : nat) : option Exec :=
  match find_workspace (file_exists env) fuel (PWD env) with
  | None => None
  | Some WORKSPACE_DIR =>
      if str_eqb (DAIRLIB_WITH_ROS env) (lit "ON") then
        Some {| exec_name := script_name env;
                exec_program := BAZEL_REAL env;
                exec_arguments := arguments env |}
      else
        Some {| exec_name := script_name env;
                exec_program := BAZEL_REAL env;
                exec_arguments :=
                  (lit "--bazelrc=" ++ WORKSPACE_DIR ++ lit "/noros.bazelrc")
                  :: arguments env |}
  end.

(** An absolute pathname, and a leading part of a word. *)
Definition absolute (s : str) : Prop := exists t, s = "/"%char :: t.
Definition is_prefix (a b : str) : Prop := exists t, b = a ++ t.
Definition is_suffix (a b : str) : Prop := exists p, b = p ++ a.

(** A checkout in [/home/u/dairlib], the shell three levels below its
    top, ROS switched off. *)
Definition checkout : Environment :=
  {| PWD := lit "/home/u/dairlib/examples/Cassie";
     DAIRLIB_WITH_ROS := [];
     BAZEL_REAL := lit "/usr/bin/bazel-real";
     script_name := lit "tools/bazel";
     arguments := [lit "build"; lit "//..."];
     file_exists := fun s => str_eqb s (lit "/home/u/dairlib/WORKSPACE") |}.

(** The same shell where no directory above holds a [WORKSPACE]. *)
Definition stray : Environment :=
  {| PWD := lit "/home/u/dairlib/examples/Cassie";
     DAIRLIB_WITH_ROS := [];
     BAZEL_REAL := lit "/usr/bin/bazel-real";
     script_name := lit "tools/bazel";
     arguments := [lit "build"; lit "//..."];
     file_exists := fun _ => false |}.

(** A word of slashes only, the empty word among them; a word without a
    newline; a word with a character that is not a slash. *)
Definition slashes (s : str) : Prop :=
  Forall (fun a => is_slash a = true) s.
Definition newline_free (s : str) : Prop :=
  Forall (fun a => is_newline a = false) s.
Definition named (s : str) : Prop :=
  Exists (fun a => is_slash a = false) s.

(** A name of the file [WORKSPACE] of the root directory, as the test
    [-e "${WORKSPACE_DIR}/WORKSPACE"] would spell it. *)
Definition root_workspace (s : str) : Prop :=
  exists D, slashes D /\ s = D ++ lit "/WORKSPACE".

(** The root directory under another spelling, with and without a
    [WORKSPACE] in the root. *)
Definition doubled_root (in_root : bool) : Environment :=
  {| PWD := lit "//";
     DAIRLIB_WITH_ROS := [];
     BAZEL_REAL := lit "/usr/bin/bazel-real";
     script_name := lit "tools/bazel";
     arguments := [lit "build"];
     file_exists :=
       fun s => andb in_root (str_eqb s (lit "///WORKSPACE")) |}.
End BazelWrapper.

(** * More vocabulary for the world-frame quantities *)

Module WorldFrame.
Import R3.
Local Open Scope R_scope.

(** [J v] for a filled buffer [J], as a vector of the space. *)
Definition times (n : nat) (f : nat -> vec) (v : VectorX R) : vec :=
  (dot (map (fun j => coeff3 (f j) 0) (seq 0 n)) v,
   dot (map (fun j => coeff3 (f j) 1) (seq 0 n)) v,
   dot (map (fun j => coeff3 (f j) 2) (seq 0 n)) v).

Section Quantities.
Variables Context Frame : Type.
Variable e : DistanceEvaluator R Context Frame.
Variable c : Context.

(** [rel_pos], [J_rel * v] and [J_rel_dot_times_v] of
    [EvalFullJacobianDotTimesV], as vectors of the space. *)
Definition Delta_W : vec :=
  minus (world_position (plant e) c (frame_A_ e) (pt_A_ e))
        (world_position (plant e) c (frame_B_ e) (pt_B_ e)).

Definition J_rel_v_W : vec :=
  times (num_velocities (plant e))
    (fun j => minus (world_jacobian (plant e) c (frame_A_ e) (pt_A_ e) j)
                    (world_jacobian (plant e) c (frame_B_ e) (pt_B_ e) j))
    (GetVelocities (plant e) c).

Definition a_rel_W : vec :=
  minus
    (translational
       (CalcBiasSpatialAcceleration (plant e) c kV (frame_A_ e) (pt_A_ e)
          (world_frame (plant e)) (world_frame (plant e))))
    (translational
       (CalcBiasSpatialAcceleration (plant e) c kV (frame_B_ e) (pt_B_ e)
          (world_frame (plant e)) (world_frame (plant e)))).
End Quantities.
End WorldFrame.

(** * NaN coordinates *)

Module Binary64Nan.
Local Open Scope float_scope.

(** Some coordinate is NaN. *)
Definition has_nan (p : Vector3 float) : Prop :=
  let '(x, y, z) := p in x = nan \/ y = nan \/ z = nan.

(** The point masses with mass A nowhere: its position is NaN. *)
Definition lost : PointMasses.State := ([nan; 0], [0; 0]).
End Binary64Nan.

(** * The calls into the engine, as steps

    The three methods once more, with every call into the engine as a
    step of its own.  Behind the references the evaluator is handed lies
    memory of the engine, its caches included; what a query does to it
    is not visible in the source of the evaluator, and is a parameter
    here: the footprint of the engine. *)

Module WithEffects.
Section Calls.
Variable T : Type.
Context `{Scalar T}.
Variables Context Frame : Type.

(** What each query leaves behind the context reference, besides
    returning its value. *)
Record Footprint : Type := {
  after_num_velocities : Context -> Context;
  after_world_frame : Context -> Context;
  after_CalcPointsPositions :
    Frame -> Vector3 T -> Frame -> Context -> Context;
  after_CalcJacobianTranslationalVelocity :
    JacobianWrtVariable -> Frame -> Vector3 T -> Frame -> Frame ->
    Context -> Context;
  after_CalcBiasSpatialAcceleration :
    JacobianWrtVariable -> Frame -> Vector3 T -> Frame -> Frame ->
    Context -> Context;
  after_GetVelocities : Context -> Context
}.

(** The contract of a [const] query on a [const] context: nothing the
    caller can observe is written. *)
Definition read_only (E : Footprint) : Prop :=
  (forall c, after_num_velocities E c = c) /\
  (forall c, after_world_frame E c = c) /\
  (forall F p G c, after_CalcPointsPositions E F p G c = c) /\
  (forall w F p A G c,
      after_CalcJacobianTranslationalVelocity E w F p A G c = c) /\
  (forall w F p A G c,
      after_CalcBiasSpatialAcceleration E w F p A G c = c) /\
  (forall c, after_GetVelocities E c = c).

Variable E : Footprint.

(** A call [plant().query(context, ...)]: the value is the engine's
    answer on the memory as it is now; the memory goes on as the query
    leaves it. *)
Definition query {A : Type}
    (answer : MultibodyPlant T Context Frame -> Context -> A)
    (after : Footprint -> Context -> Context)
    : Method T Context Frame A :=
  fun m =>
    (answer (plant (self m)) (context m),
     {| self := self m; context := after E (context m) |}).

Local Notation "x <- c ;; k" := (bind c (fun x => k))
  (at level 61, c at next level, right associativity).

(** [DistanceEvaluator<T>::EvalFull]. *)
Definition EvalFull : Method T Context Frame (VectorX T) :=
  pt_A_ <- this (@pt_A_ T _ Context Frame) ;;
  frame_A_ <- this (@frame_A_ T _ Context Frame) ;;
  pt_B_ <- this (@pt_B_ T _ Context Frame) ;;
  frame_B_ <- this (@frame_B_ T _ Context Frame) ;;
  distance_ <- this (@distance_ T _ Context Frame) ;;
  (* Transform point A to frame B, and compute norm *)
  pt_A_B <-
    query (fun plant context =>
             CalcPointsPositions plant context frame_A_
               (cast3 pt_A_) frame_B_)
          (fun E => after_CalcPointsPositions E frame_A_
                      (cast3 pt_A_) frame_B_) ;;
  let rel_pos := vsub (to_VectorX pt_A_B) (to_VectorX (cast3 pt_B_)) in
  let difference := [sub (norm rel_pos) (cast distance_)] in
  ret difference.

(** [DistanceEvaluator<T>::EvalFullJacobian]. *)
Definition EvalFullJacobian : Method T Context Frame (MatrixX T) :=
  pt_A_ <- this (@pt_A_ T _ Context Frame) ;;
  frame_A_ <- this (@frame_A_ T _ Context Frame) ;;
  pt_B_ <- this (@pt_B_ T _ Context Frame) ;;
  frame_B_ <- this (@frame_B_ T _ Context Frame) ;;
  pt_A_B <-
    query (fun plant context =>
             CalcPointsPositions plant context frame_A_
               (cast3 pt_A_) frame_B_)
          (fun E => after_CalcPointsPositions E frame_A_
                      (cast3 pt_A_) frame_B_) ;;
  let rel_pos := vsub (to_VectorX pt_A_B) (to_VectorX (cast3 pt_B_)) in
  nv <- query (fun plant _ => num_velocities plant)
              after_num_velocities ;;
  columns <-
    query (fun plant context =>
             CalcJacobianTranslationalVelocity plant context kV
               frame_A_ (cast3 pt_A_) frame_B_ frame_B_)
          (fun E => after_CalcJacobianTranslationalVelocity E kV
                      frame_A_ (cast3 pt_A_) frame_B_ frame_B_) ;;
  let J_A := filled nv columns in
  ret (mdiv (mmul (transpose rel_pos) J_A) (norm rel_pos)).

(** [DistanceEvaluator<T>::EvalFullJacobianDotTimesV]. *)
Definition EvalFullJacobianDotTimesV : Method T Context Frame (VectorX T) :=
  pt_A_ <- this (@pt_A_ T _ Context Frame) ;;
  frame_A_ <- this (@frame_A_ T _ Context Frame) ;;
  pt_B_ <- this (@pt_B_ T _ Context Frame) ;;
  frame_B_ <- this (@frame_B_ T _ Context Frame) ;;
  world <- query (fun plant _ => world_frame plant) after_world_frame ;;
  let pt_A_cast := cast3 pt_A_ in
  let pt_B_cast := cast3 pt_B_ in
  pt_A_world <-
    query (fun plant context =>
             CalcPointsPositions plant context frame_A_ pt_A_cast world)
          (fun E => after_CalcPointsPositions E frame_A_ pt_A_cast world) ;;
  pt_B_world <-
    query (fun plant context =>
             CalcPointsPositions plant context frame_B_ pt_B_cast world)
          (fun E => after_CalcPointsPositions E frame_B_ pt_B_cast world) ;;
  let rel_pos := vsub (to_VectorX pt_A_world) (to_VectorX pt_B_world) in
  nv_A <- query (fun plant _ => num_velocities plant)
                after_num_velocities ;;
  nv_B <- query (fun plant _ => num_velocities plant)
                after_num_velocities ;;
  columns_A <-
    query (fun plant context =>
             CalcJacobianTranslationalVelocity plant context kV
               frame_A_ pt_A_cast world world)
          (fun E => after_CalcJacobianTranslationalVelocity E kV
                      frame_A_ pt_A_cast world world) ;;
  columns_B <-
    query (fun plant context =>
             CalcJacobianTranslationalVelocity plant context kV
               frame_B_ pt_B_cast world world)
          (fun E => after_CalcJacobianTranslationalVelocity E kV
                      frame_B_ pt_B_cast world world) ;;
  let J_rel := msub (filled nv_A columns_A) (filled nv_B columns_B) in
  a_A <-
    query (fun plant context =>
             CalcBiasSpatialAcceleration plant context kV
               frame_A_ pt_A_cast world world)
          (fun E => after_CalcBiasSpatialAcceleration E kV
                      frame_A_ pt_A_cast world world) ;;
  a_B <-
    query (fun plant context =>
             CalcBiasSpatialAcceleration plant context kV
               frame_B_ pt_B_cast world world)
          (fun E => after_CalcBiasSpatialAcceleration E kV
                      frame_B_ pt_B_cast world world) ;;
  let J_A_dot_times_v := to_VectorX (translational a_A) in
  let J_B_dot_times_v := to_VectorX (translational a_B) in
  let J_rel_dot_times_v := vsub J_A_dot_times_v J_B_dot_times_v in
  let phi := norm rel_pos in
  let J := mdiv (mmul (transpose rel_pos) J_rel) phi in
  v <- query (fun plant context => GetVelocities plant context)
             after_GetVelocities ;;
  let phidot := dot (as_vector J) v in
  v' <- query (fun plant context => GetVelocities plant context)
              after_GetVelocities ;;
  let J_rel_v := mvmul J_rel v' in
  let J_dot_times_v :=
    [sub (add (div (squaredNorm J_rel_v) phi)
              (div (dot rel_pos J_rel_dot_times_v) phi))
         (div (mul phidot (dot rel_pos J_rel_v)) (mul phi phi))] in
  ret J_dot_times_v.
End Calls.

(** The engine of the point masses keeps nothing behind the context:
    its footprint is empty. *)
Definition untouched : Footprint float PointMasses.State PointMasses.Body :=
  {| after_num_velocities := fun c => c;
     after_world_frame := fun c => c;
     after_CalcPointsPositions := fun _ _ _ c => c;
     after_CalcJacobianTranslationalVelocity := fun _ _ _ _ _ c => c;
     after_CalcBiasSpatialAcceleration := fun _ _ _ _ _ c => c;
     after_GetVelocities := fun c => c |}.

(** An engine that would lose the velocities on a position query. *)
Definition forgetful : Footprint float PointMasses.State PointMasses.Body :=
  {| after_num_velocities := fun c => c;
     after_world_frame := fun c => c;
     after_CalcPointsPositions := fun _ _ _ c => (fst c, []);
     after_CalcJacobianTranslationalVelocity := fun _ _ _ _ _ c => c;
     after_CalcBiasSpatialAcceleration := fun _ _ _ _ _ c => c;
     after_GetVelocities := fun c => c |}.
End WithEffects.

(** * The methods, unfolded *)

Section Unfolded.
Variable T : Type.
Context `{Scalar T}.
Variables Context Frame : Type.
Implicit Types (e : DistanceEvaluator T Context Frame) (c : Context).
Implicit Types (m : Machine T Context Frame).

Lemma EvalFull_eq e c :
  call EvalFull e c = [sub (norm (rel_pos_B e c)) (cast (distance_ e))].
Proof. reflexivity. Qed.

Lemma EvalFullJacobian_eq e c :
  call EvalFullJacobian e c =
  mdiv (mmul (transpose (rel_pos_B e c))
          (filled (num_velocities (plant e))
             (CalcJacobianTranslationalVelocity (plant e) c kV
                (frame_A_ e) (cast3 (pt_A_ e))
                (frame_B_ e) (frame_B_ e))))
       (norm (rel_pos_B e c)).
Proof. reflexivity. Qed.

(** No method writes: each leaves the machine as it found it. *)
Lemma EvalFull_reads m :
  EvalFull m = (call EvalFull (self m) (context m), m).
Proof. destruct m; reflexivity. Qed.

Lemma EvalFullJacobian_reads m :
  EvalFullJacobian m = (call EvalFullJacobian (self m) (context m), m).
Proof. destruct m; reflexivity. Qed.

Lemma EvalFullJacobianDotTimesV_reads m :
  EvalFullJacobianDotTimesV m =
  (call EvalFullJacobianDotTimesV (self m) (context m), m).
Proof. destruct m; reflexivity. Qed.
End Unfolded.

(** * Shape of the results *)

Section Shapes.
Variable T : Type.
Context `{Scalar T}.

Lemma cols_filled n (f : nat -> Vector3 T) : cols (filled n f) = n.
Proof. unfold cols, filled; simpl. now rewrite length_map, length_seq. Qed.

Lemma rows_filled n (f : nat -> Vector3 T) : rows (filled n f) = 3.
Proof. reflexivity. Qed.

Lemma rows_mdiv (M : MatrixX T) s : rows (mdiv M s) = rows M.
Proof. unfold rows, mdiv. apply length_map. Qed.

Lemma cols_mdiv (M : MatrixX T) s : cols (mdiv M s) = cols M.
Proof. destruct M; unfold cols; simpl; [reflexivity | apply length_map]. Qed.

Lemma cols_row_times (a : VectorX T) (M : MatrixX T) :
  cols (mmul (transpose a) M) = cols M.
Proof. unfold cols at 1; simpl. now rewrite length_map, length_seq. Qed.
End Shapes.

(** * Algebra in three dimensions *)

Module R3Facts.
Import R3.
Local Open Scope R_scope.

Ltac components :=
  repeat match goal with
         | v : vec |- _ => destruct v as [[? ?] ?]
         | M : mat |- _ => destruct M as [[? ?] ?]
         end.

Ltac by_components :=
  intros; components; cbv [plus minus scale inner cross apply transp I O];
  repeat match goal with |- (_, _) = (_, _) => apply f_equal2 end; ring.

Lemma inner_opp a b : inner (minus a b) (minus a b) = inner (minus b a) (minus b a).
Proof. by_components. Qed.

Lemma length_opp a b : length (minus a b) = length (minus b a).
Proof. unfold length. now rewrite inner_opp. Qed.
End R3Facts.

(** * Eigen expressions over filled buffers *)

Section Buffers.
Variable T : Type.
Context `{Scalar T}.

Lemma vsub_map (A : Type) (f g : A -> T) (l : list A) :
  vsub (map f l) (map g l) = map (fun j => sub (f j) (g j)) l.
Proof.
  unfold vsub. induction l as [|a l IH]; simpl; [reflexivity|].
  now rewrite IH.
Qed.

Lemma col_filled n (f : nat -> Vector3 T) j :
  j < n -> col j (filled n f) = to_VectorX (f j).
Proof.
  intros Hj. unfold col, filled. cbn [seq map].
  assert (E : forall i,
             nth j (map (fun k => coeff3 (f k) i) (seq 0 n)) zero
             = coeff3 (f j) i).
  { intros i.
    rewrite (nth_indep _ zero (coeff3 (f 0) i))
      by now rewrite length_map, length_seq.
    rewrite (map_nth (fun k => coeff3 (f k) i)), seq_nth by assumption.
    reflexivity. }
  rewrite !E. destruct (f j) as [[x y] z]. reflexivity.
Qed.

Lemma row_times_filled (a : VectorX T) n (f : nat -> Vector3 T) :
  mmul (transpose a) (filled n f)
  = [map (fun j => dot a (to_VectorX (f j))) (seq 0 n)].
Proof.
  unfold mmul, transpose. cbn [map]. rewrite cols_filled.
  f_equal. apply map_ext_in. intros j Hj.
  apply in_seq in Hj. now rewrite col_filled by lia.
Qed.

Lemma msub_filled n (f g : nat -> Vector3 T) :
  msub (filled n f) (filled n g)
  = map (fun i =>
           map (fun j => sub (coeff3 (f j) i) (coeff3 (g j) i)) (seq 0 n))
        (seq 0 3).
Proof.
  unfold msub, filled. cbn [seq map combine fst snd].
  now rewrite !vsub_map.
Qed.
End Buffers.

Module RealFacts.
Import R3 R3Facts.
Local Open Scope R_scope.

Lemma cast3_real (p : vec) : @cast3 R _ p = p.
Proof. now destruct p as [[x y] z]. Qed.

Lemma dot3 (a b : vec) : dot (to_VectorX a) (to_VectorX b) = inner a b.
Proof. components. reflexivity. Qed.

Lemma vsub3 (a b : vec) :
  vsub (to_VectorX a) (to_VectorX b) = to_VectorX (minus a b).
Proof. components. reflexivity. Qed.

Lemma norm3 (a : vec) : norm (to_VectorX a) = length a.
Proof. components. reflexivity. Qed.

Lemma coeff3_minus (a b : vec) i :
  coeff3 (minus a b) i = coeff3 a i - coeff3 b i.
Proof. components. destruct i as [|[|i]]; reflexivity. Qed.

Lemma msub_filled_real n (f g : nat -> vec) :
  msub (filled n f) (filled n g) = filled n (fun j => minus (f j) (g j)).
Proof.
  rewrite msub_filled. unfold filled.
  apply map_ext. intros i. apply map_ext. intros j.
  now rewrite coeff3_minus.
Qed.

(** The row [Delta^T J / |Delta|], entry by entry. *)
Lemma normalized_row (Delta : vec) n (f : nat -> vec) :
  mdiv (mmul (transpose (to_VectorX Delta)) (filled n f))
       (norm (to_VectorX Delta))
  = [map (fun j => inner Delta (f j) / length Delta) (seq 0 n)].
Proof.
  rewrite row_times_filled, norm3. unfold mdiv. cbn [map].
  rewrite map_map. f_equal. apply map_ext. intros j.
  now rewrite dot3.
Qed.
End RealFacts.

(** * The bias term, unfolded; sums of real numbers *)

Section Bias.
Variable T : Type.
Context `{Scalar T}.
Variables Context Frame : Type.
Implicit Types (e : DistanceEvaluator T Context Frame) (c : Context).

Lemma EvalFullJacobianDotTimesV_J_eq e c :
  call EvalFullJacobianDotTimesV_J e c =
  mdiv (mmul (transpose (rel_pos_W e c)) (J_rel_W e c))
       (norm (rel_pos_W e c)).
Proof. reflexivity. Qed.

Lemma EvalFullJacobianDotTimesV_eq e c :
  call EvalFullJacobianDotTimesV e c =
  let v := GetVelocities (plant e) c in
  let rel_pos := rel_pos_W e c in
  let J_rel := J_rel_W e c in
  let phi := norm rel_pos in
  let J := call EvalFullJacobianDotTimesV_J e c in
  let phidot := dot (as_vector J) v in
  let J_rel_v := mvmul J_rel v in
  [sub (add (div (squaredNorm J_rel_v) phi)
            (div (dot rel_pos (J_rel_dot_times_v_W e c)) phi))
       (div (mul phidot (dot rel_pos J_rel_v)) (mul phi phi))].
Proof. reflexivity. Qed.
End Bias.

Section RealSums.
Local Open Scope R_scope.

Lemma fold_add_nonneg (l : list R) a :
  0 <= a -> Forall (fun x => 0 <= x) l -> 0 <= fold_left Rplus l a.
Proof.
  revert a. induction l as [|x l IH]; intros a Ha Hl; simpl; [assumption|].
  inversion Hl; subst. apply IH; [lra | assumption].
Qed.

Lemma squaredNorm_nonneg (a : VectorX R) : 0 <= squaredNorm a.
Proof.
  unfold squaredNorm, sum.
  assert (Hsq : Forall (fun x => 0 <= x) (map (fun x => mul x x) a)).
  { apply Forall_forall. intros y Hy. apply in_map_iff in Hy.
    destruct Hy as (x & <- & _). cbn. nra. }
  destruct (map (fun x => mul x x) a) as [|y l]; [cbn; lra|].
  inversion Hsq; subst. now apply fold_add_nonneg.
Qed.

Lemma norm_squared (a : VectorX R) : norm a ^ 2 = squaredNorm a.
Proof.
  unfold norm. cbn [sqrt Scalar_R]. rewrite <- Rsqr_pow2.
  apply Rsqr_sqrt, squaredNorm_nonneg.
Qed.

End RealSums.

(** * The Jacobians, entry by entry *)

Section JacobianForms.
Import R3 R3Facts RealFacts.
Local Open Scope R_scope.
Variables Context Frame : Type.
Implicit Types (e : DistanceEvaluator R Context Frame) (c : Context).

(** The entries of the local [J] of [EvalFullJacobianDotTimesV]. *)
Lemma EvalFullJacobianDotTimesV_J_entries e c :
  call EvalFullJacobianDotTimesV_J e c =
  [map (fun j =>
          inner (minus (world_position (plant e) c (frame_A_ e) (pt_A_ e))
                       (world_position (plant e) c (frame_B_ e) (pt_B_ e)))
                (minus (world_jacobian (plant e) c (frame_A_ e) (pt_A_ e) j)
                       (world_jacobian (plant e) c (frame_B_ e) (pt_B_ e) j))
          / length
              (minus (world_position (plant e) c (frame_A_ e) (pt_A_ e))
                     (world_position (plant e) c (frame_B_ e) (pt_B_ e))))
       (seq 0 (num_velocities (plant e)))].
Proof.
  change (call EvalFullJacobianDotTimesV_J e c) with
    (mdiv (mmul (transpose (rel_pos_W e c)) (J_rel_W e c))
          (norm (rel_pos_W e c))).
  unfold rel_pos_W, J_rel_W.
  rewrite !cast3_real, vsub3, msub_filled_real.
  apply normalized_row.
Qed.
End JacobianForms.

(** * The points of the screw evaluator stay apart *)

Module ScrewApart.
Import R3 R3Facts RealFacts Screw.
Local Open Scope R_scope.

(** The two points of [Screw.evaluator] never meet. *)
Lemma in_world c :
  length (minus (world_position plant c World (0, 0, 2))
                (world_position plant c Link (1, 0, 0))) <> 0.
Proof.
  destruct c as [q v].
  assert (E := sin2_cos2 q). unfold Rsqr in E.
  unfold length. apply Rgt_not_eq, sqrt_lt_R0.
  cbv [world_position plant CalcPointsPositions world_frame position
       R_W p_W Rz plus minus apply transp inner I O fst].
  match goal with
  | |- 0 < ?x =>
      replace x with (sin q * sin q + cos q * cos q + (2 - q) * (2 - q))
        by ring
  end.
  rewrite E.
  assert (Hs := Rle_0_sqr (2 - q)). unfold Rsqr in Hs. lra.
Qed.

End ScrewApart.

(** * Binary64 arithmetic around zero *)

Module Binary64Facts.
Import Binary64.
Local Open Scope float_scope.

Lemma finite_cases x :
  is_finite x = true ->
  (exists s, Prim2SF x = S754_zero s) \/
  (exists s m e, Prim2SF x = S754_finite s m e).
Proof.
  unfold is_finite, is_nan, is_infinity. rewrite !eqb_spec, abs_spec.
  change (Prim2SF infinity) with (S754_infinity false).
  destruct (Prim2SF x) as [s|s| |s m e].
  - intros _. left. now exists s.
  - destruct s; discriminate.
  - discriminate.
  - intros _. right. now exists s, m, e.
Qed.

Lemma sub_self x : is_finite x = true -> x - x = 0.
Proof.
  intros Hx. apply Prim2SF_inj. rewrite sub_spec.
  destruct (finite_cases x Hx) as [[s E]|(s & m & e & E)]; rewrite E.
  - destruct s; reflexivity.
  - unfold SF64sub, SFsub. rewrite Z.sub_diag. reflexivity.
Qed.

Lemma void_zero_mul y : void (0 * y).
Proof.
  unfold void. rewrite mul_spec. change (Prim2SF 0) with (S754_zero false).
  destruct (Prim2SF y) as [s|s| |s m e]; cbn; eauto.
Qed.

Lemma void_add x y : void x -> void y -> void (x + y).
Proof.
  unfold void. rewrite add_spec.
  intros [[s ->]| ->] [[s' ->]| ->]; cbn; eauto.
  destruct s, s'; eauto.
Qed.

Lemma void_div_zero x : void x -> x / 0 = nan.
Proof.
  intros Hx. apply Prim2SF_inj. rewrite div_spec.
  change (Prim2SF 0) with (S754_zero false).
  destruct Hx as [[s ->]| ->]; reflexivity.
Qed.

Lemma add_nan_r x : x + nan = nan.
Proof.
  apply Prim2SF_inj. rewrite add_spec. change (Prim2SF nan) with S754_nan.
  destruct (Prim2SF x); reflexivity.
Qed.

Lemma sub_nan_l x : nan - x = nan.
Proof.
  apply Prim2SF_inj. rewrite sub_spec. change (Prim2SF nan) with S754_nan.
  destruct (Prim2SF x); reflexivity.
Qed.

Lemma cast3_binary64 (p : Vector3 float) : @cast3 float _ p = p.
Proof. now destruct p as [[x y] z]. Qed.

(** The difference of a finite point with itself. *)
Lemma vsub_self (p : Vector3 float) :
  finite3 p -> vsub (to_VectorX p) (to_VectorX p) = [0; 0; 0].
Proof.
  destruct p as [[x y] z]. intros (Hx & Hy & Hz).
  cbn. now rewrite !sub_self.
Qed.

(** Projecting anything on the zero vector and dividing by its length. *)
Lemma zero_projection (a : Vector3 float) :
  div (dot [0; 0; 0] (to_VectorX a)) (norm [0; 0; 0]) = nan.
Proof.
  destruct a as [[x y] z].
  change (norm [0; 0; 0]) with 0. cbn.
  apply void_div_zero. repeat apply void_add; apply void_zero_mul.
Qed.
End Binary64Facts.

(** * Runs in binary64 *)

Module PointMassesRuns.
Local Open Scope float_scope.

(** At rest and apart, the bias is zero. *)
Example bias_at_rest :
  call EvalFullJacobianDotTimesV PointMasses.apart PointMasses.home = [0].
Proof. vm_compute. reflexivity. Qed.

(** The Jacobian of the scenario: mass A is behind mass B along [x]. *)
Example jacobian_apart :
  call EvalFullJacobian PointMasses.apart PointMasses.home = [[-1; 1]].
Proof. vm_compute. reflexivity. Qed.

(** A separation whose square underflows: the norm is zero although the
    points differ, and the quotients are infinite or NaN. *)
Example separation_is_lost :
  call EvalFull PointMasses.nearly_coincident PointMasses.home = [-0.5].
Proof. vm_compute. reflexivity. Qed.

Example jacobian_is_infinite :
  call EvalFullJacobian PointMasses.nearly_coincident PointMasses.home
  = [[infinity; neg_infinity]].
Proof. vm_compute. reflexivity. Qed.

Example bias_is_nan :
  call EvalFullJacobianDotTimesV PointMasses.nearly_coincident
    PointMasses.home = [nan].
Proof. vm_compute. reflexivity. Qed.
End PointMassesRuns.

(** * Rounding in binary64

    The operations of binary64 are specified by [SpecFloat] on
    mantissas and exponents; what follows is read off that
    specification. *)

Module Binary64Rounding.
Local Open Scope Z_scope.

Lemma digits2_size p : digits2_pos p = Pos.size p.
Proof. induction p; cbn; congruence. Qed.

Lemma digits_log2 p : Zpos (digits2_pos p) = Z.log2 (Zpos p) + 1.
Proof.
  destruct p as [p|p|]; cbn [digits2_pos Z.log2]; try reflexivity;
    now rewrite Pos2Z.inj_succ, digits2_size.
Qed.

Lemma Zdigits2_log2 m : 0 < m -> Zdigits2 m = Z.log2 m + 1.
Proof. destruct m; try lia. intros _. apply digits_log2. Qed.

Lemma digits_upper p : Zpos p < 2 ^ Zpos (digits2_pos p).
Proof.
  rewrite digits_log2. replace (Z.log2 (Zpos p) + 1) with
    (Z.succ (Z.log2 (Zpos p))) by lia.
  apply Z.log2_spec. lia.
Qed.

Lemma digits_lower p : 2 ^ (Zpos (digits2_pos p) - 1) <= Zpos p.
Proof.
  rewrite digits_log2. replace (Z.log2 (Zpos p) + 1 - 1) with
    (Z.log2 (Zpos p)) by lia.
  apply Z.log2_spec. lia.
Qed.

Lemma iter_xO m d : Zpos (Pos.iter xO m d) = Zpos m * 2 ^ Zpos d.
Proof.
  induction d using Pos.peano_ind.
  - cbn. lia.
  - rewrite Pos.iter_succ, Pos2Z.inj_succ, Z.pow_succ_r by lia.
    change (Zpos (Pos.iter xO m d)~0) with (2 * Zpos (Pos.iter xO m d)).
    lia.
Qed.

(** Shifting a mantissa to the right, bit by bit. *)
Lemma shr_1_m mrs :
  0 <= shr_m mrs -> shr_m (shr_1 mrs) = Z.div2 (shr_m mrs).
Proof.
  destruct mrs as [m r s]. cbn [shr_m]. unfold shr_1.
  destruct m as [|p|p]; [reflexivity| |lia].
  intros _. destruct p; reflexivity.
Qed.

Lemma iter_shr_1_m p : forall mrs,
  0 <= shr_m mrs ->
  shr_m (iter_pos shr_1 p mrs) = Z.shiftr (shr_m mrs) (Zpos p).
Proof.
  induction p as [p IH|p IH|]; intros mrs Hm; cbn [iter_pos].
  - assert (H1 : 0 <= shr_m (shr_1 mrs)).
    { rewrite shr_1_m by assumption. rewrite Z.div2_spec.
      now apply Z.shiftr_nonneg. }
    assert (H2 : 0 <= shr_m (iter_pos shr_1 p (shr_1 mrs))).
    { rewrite IH by assumption. now apply Z.shiftr_nonneg. }
    rewrite IH, IH, shr_1_m by assumption.
    rewrite Z.div2_spec, !Z.shiftr_shiftr by lia. f_equal. lia.
  - assert (H2 : 0 <= shr_m (iter_pos shr_1 p mrs)).
    { rewrite IH by assumption. now apply Z.shiftr_nonneg. }
    rewrite IH, IH by assumption.
    rewrite Z.shiftr_shiftr by lia. f_equal. lia.
  - rewrite shr_1_m by assumption. apply Z.div2_spec.
Qed.

Lemma shr_record_of_loc_m m l : shr_m (shr_record_of_loc m l) = m.
Proof. destruct l as [|[]]; reflexivity. Qed.

Lemma shiftr_pos m n :
  0 < m -> 0 <= n -> n < Zdigits2 m -> 0 < Z.shiftr m n.
Proof.
  intros Hm Hn Hd. rewrite Zdigits2_log2 in Hd by assumption.
  rewrite Z.shiftr_div_pow2 by assumption.
  apply Z.div_str_pos. split; [apply Z.pow_pos_nonneg; lia|].
  etransitivity; [|apply Z.log2_spec; assumption].
  apply Z.pow_le_mono_r; lia.
Qed.

(** The magnitude of a value: the exponent just above its leading
    bit.  Bringing a mantissa to the format keeps the value from
    vanishing, and its magnitude from falling, as long as the
    magnitude is above the smallest exponent. *)
Lemma shr_fexp_keeps m e l :
  0 < m -> emin < Zdigits2 m + e ->
  0 < shr_m (fst (shr_fexp prec emax m e l)) /\
  Zdigits2 m + e
  <= Zdigits2 (shr_m (fst (shr_fexp prec emax m e l)))
     + snd (shr_fexp prec emax m e l).
Proof.
  intros Hm He. unfold shr_fexp, shr.
  destruct (fexp prec emax (Zdigits2 m + e) - e) as [|n|n] eqn:En;
    cbn [fst snd]; rewrite ?shr_record_of_loc_m; try (split; [assumption|lia]).
  rewrite iter_shr_1_m by (rewrite shr_record_of_loc_m; lia).
  rewrite shr_record_of_loc_m.
  assert (Hn : Zpos n < Zdigits2 m).
  { unfold fexp, SpecFloat.emin, prec, emax in *. lia. }
  assert (Hs : 0 < Z.shiftr m (Zpos n)) by (apply shiftr_pos; lia).
  split; [assumption|].
  rewrite (@Zdigits2_log2 _ Hs), (@Zdigits2_log2 _ Hm).
  rewrite Z.log2_shiftr by assumption. lia.
Qed.

Lemma round_nearest_even_keeps m l :
  0 < m ->
  0 < round_nearest_even m l /\
  Zdigits2 m <= Zdigits2 (round_nearest_even m l).
Proof.
  intros Hm.
  assert (Hle : m <= round_nearest_even m l).
  { destruct l as [|[]]; cbn; try lia. destruct (Z.even m); lia. }
  split; [lia|].
  rewrite !Zdigits2_log2 by lia.
  apply Z.add_le_mono_r, Z.log2_le_mono, Hle.
Qed.

Lemma binary_round_aux_keeps s m e l :
  0 < m -> emin < Zdigits2 m + e ->
  (exists m' e',
      binary_round_aux prec emax s m e l = S754_finite s m' e' /\
      Zdigits2 m + e <= Zpos (digits2_pos m') + e') \/
  binary_round_aux prec emax s m e l = S754_infinity s.
Proof.
  intros Hm He. unfold binary_round_aux.
  destruct (@shr_fexp_keeps _ _ l Hm He) as [H1 H2].
  destruct (shr_fexp prec emax m e l) as [mrs' e']. cbn [fst snd] in *.
  destruct (@round_nearest_even_keeps _ (loc_of_shr_record mrs') H1)
    as [H3 H4].
  assert (He' : emin < Zdigits2 (round_nearest_even (shr_m mrs')
                                   (loc_of_shr_record mrs')) + e') by lia.
  destruct (@shr_fexp_keeps _ _ loc_Exact H3 He') as [H5 H6].
  destruct (shr_fexp prec emax _ e' loc_Exact) as [mrs'' e''].
  cbn [fst snd] in *.
  destruct (shr_m mrs'') as [|p|p]; try lia.
  destruct (e'' <=? emax - prec); [left|now right].
  exists p, e''. split; [reflexivity|]. cbn [Zdigits2] in H6. lia.
Qed.

Lemma binary_round_keeps s m e :
  emin <= e ->
  (exists m' e', binary_round prec emax s m e = S754_finite s m' e') \/
  binary_round prec emax s m e = S754_infinity s.
Proof.
  intros He. unfold binary_round.
  destruct (shl_align m e _) as [mz ez] eqn:Ea.
  assert (Hz : emin <= ez).
  { unfold shl_align in Ea.
    destruct (fexp prec emax (Zpos (digits2_pos m) + e) - e) eqn:Ed;
      injection Ea as <- <-; try assumption.
    unfold fexp, SpecFloat.emin, prec, emax in *. lia. }
  destruct (@binary_round_aux_keeps s (Zpos mz) ez loc_Exact)
    as [(m' & e' & -> & _)| ->]; eauto; cbn [Zdigits2]; lia.
Qed.

(** ** Subtraction and order *)

Lemma bounded_canonical m e :
  bounded prec emax m e = true ->
  emin <= e /\ Zpos (digits2_pos m) <= prec /\
  (emin < e -> Zpos (digits2_pos m) = prec).
Proof.
  unfold bounded, canonical_mantissa, fexp, SpecFloat.emin, prec, emax.
  intros Hb. apply andb_prop in Hb. destruct Hb as [Hc _].
  apply Z.eqb_eq in Hc. lia.
Qed.

Lemma shl_align_value m e ez :
  ez <= e -> Zpos (fst (shl_align m e ez)) = Zpos m * 2 ^ (e - ez).
Proof.
  intros Hle. unfold shl_align.
  destruct (ez - e) as [|d|d] eqn:Ed; cbn [fst]; try lia.
  - replace (e - ez) with 0 by lia. cbn. lia.
  - rewrite iter_xO. do 2 f_equal. lia.
Qed.

(** Canonical representations are ordered by exponent first. *)
Lemma compare_canonical m1 e1 m2 e2 :
  bounded prec emax m1 e1 = true -> bounded prec emax m2 e2 = true ->
  (Zpos m1 * 2 ^ (e1 - Z.min e1 e2) ?= Zpos m2 * 2 ^ (e2 - Z.min e1 e2))
  = match e1 ?= e2 with
    | Lt => Lt
    | Gt => Gt
    | Eq => Pos.compare_cont Eq m1 m2
    end.
Proof.
  intros H1 H2.
  apply bounded_canonical in H1, H2.
  destruct H1 as (L1 & D1 & N1), H2 as (L2 & D2 & N2).
  pose proof (digits_upper m1) as U1. pose proof (digits_lower m1) as W1.
  pose proof (digits_upper m2) as U2. pose proof (digits_lower m2) as W2.
  assert (P : forall d, d <= prec -> 2 ^ d <= 2 ^ prec)
    by (intros; apply Z.pow_le_mono_r; lia).
  assert (Q : forall k, 1 <= k -> 2 ^ prec <= 2 ^ (prec - 1) * 2 ^ k).
  { intros k Hk. rewrite <- Z.pow_add_r by (unfold prec; lia).
    apply Z.pow_le_mono_r; unfold prec; lia. }
  destruct (Z.compare_spec e1 e2) as [E|E|E].
  - subst e2. rewrite Z.min_id, Z.sub_diag. cbn [Z.pow].
    rewrite !Z.mul_1_r. reflexivity.
  - rewrite Z.min_l, Z.sub_diag by lia. cbn [Z.pow]. rewrite Z.mul_1_r.
    apply Z.compare_lt_iff.
    rewrite N2 in W2 by lia.
    specialize (P _ D1). specialize (Q (e2 - e1) ltac:(lia)).
    assert (0 < 2 ^ (e2 - e1)) by (apply Z.pow_pos_nonneg; lia).
    nia.
  - rewrite Z.min_r, Z.sub_diag by lia. cbn [Z.pow]. rewrite Z.mul_1_r.
    apply Z.compare_gt_iff.
    rewrite N1 in W1 by lia.
    specialize (P _ D2). specialize (Q (e1 - e2) ltac:(lia)).
    assert (0 < 2 ^ (e1 - e2)) by (apply Z.pow_pos_nonneg; lia).
    nia.
Qed.

Lemma binary_normalize_compare z e :
  emin <= e ->
  SFcompare (binary_normalize prec emax z e false) (S754_zero false)
  = Some (z ?= 0).
Proof.
  intros He. destruct z as [|p|p]; cbn [binary_normalize].
  - reflexivity.
  - destruct (@binary_round_keeps false p _ He) as [(m' & e' & ->)| ->];
      reflexivity.
  - destruct (@binary_round_keeps true p _ He) as [(m' & e' & ->)| ->];
      reflexivity.
Qed.

(** The sign of a difference is the order of its operands: the
    difference of two numbers does not round to zero, nor to the other
    side of zero; and a NaN compares with nothing. *)
Lemma SFsub_compare x y :
  valid_binary x = true -> valid_binary y = true ->
  ((exists s, y = S754_zero s) \/ (exists s m e, y = S754_finite s m e)) ->
  SFcompare (SFsub prec emax x y) (S754_zero false) = SFcompare x y.
Proof.
  intros Vx Vy Fy.
  destruct x as [sx|sx| |sx mx ex];
    destruct Fy as [[sy ->]|(sy & my & ey & ->)].
  - destruct sx, sy; reflexivity.
  - destruct sy; reflexivity.
  - destruct sx; reflexivity.
  - destruct sx; reflexivity.
  - reflexivity.
  - reflexivity.
  - destruct sx; reflexivity.
  - cbn [SpecFloat.valid_binary] in Vx, Vy.
    pose proof (@bounded_canonical _ _ Vx) as (Lx & _).
    pose proof (@bounded_canonical _ _ Vy) as (Ly & _).
    unfold SFsub. rewrite binary_normalize_compare by lia.
    rewrite !shl_align_value by lia.
    pose proof (@compare_canonical _ _ _ _ Vx Vy) as C.
    set (X := Zpos mx * 2 ^ (ex - Z.min ex ey)) in *.
    set (Y := Zpos my * 2 ^ (ey - Z.min ex ey)) in *.
    assert (0 < X)
      by (apply Z.mul_pos_pos; [lia|apply Z.pow_pos_nonneg; lia]).
    assert (0 < Y)
      by (apply Z.mul_pos_pos; [lia|apply Z.pow_pos_nonneg; lia]).
    cbn [SFcompare]. f_equal.
    destruct sx, sy; cbn [cond_Zopp].
    + transitivity (CompOpp (X ?= Y)).
      * destruct (Z.compare_spec (- X - - Y) 0), (Z.compare_spec X Y);
          try lia; reflexivity.
      * rewrite C. destruct (ex ?= ey); reflexivity.
    + apply Z.compare_lt_iff. lia.
    + apply Z.compare_gt_iff. lia.
    + rewrite <- C.
      destruct (Z.compare_spec (X - Y) 0), (Z.compare_spec X Y);
        try lia; reflexivity.
Qed.

Lemma SFcompare_antisym x y :
  SFcompare y x = option_map CompOpp (SFcompare x y).
Proof.
  destruct x as [sx|sx| |sx mx ex], y as [sy|sy| |sy my ey];
    try reflexivity;
    try (destruct sx; reflexivity); try (destruct sy; reflexivity);
    try (destruct sx, sy; reflexivity).
  cbn [SFcompare option_map]. f_equal.
  rewrite (Z.compare_antisym ex ey).
  change (Pos.compare_cont Eq my mx)
    with (Pos.compare_cont (CompOpp Eq) my mx).
  rewrite <- (Pos.compare_cont_antisym mx my Eq).
  destruct sx, sy; try reflexivity;
    destruct (ex ?= ey)%Z; cbn [CompOpp]; try reflexivity;
    destruct (Pos.compare_cont Eq mx my); reflexivity.
Qed.
End Binary64Rounding.

(** * Square roots do not underflow *)

Module Binary64Sqrt.
Import Binary64Rounding.
Local Open Scope Z_scope.

(** The square root of a binary64 number has a magnitude of at least
    [-536]: it is no less than [2^-537]. *)
Lemma sqrt_core_magnitude m e :
  emin <= e ->
  let '(q, e', l) := SFsqrt_core_binary prec emax (Zpos m) e in
  0 < q /\ -536 <= Zdigits2 q + e'.
Proof.
  intros He. unfold SFsqrt_core_binary.
  set (d := Zdigits2 (Zpos m)).
  set (e' := Z.min (fexp prec emax (Z.div2 (d + e + 1))) (Z.div2 e)).
  assert (Hd : d = Z.log2 (Zpos m) + 1) by (apply Zdigits2_log2; lia).
  pose proof (Z.log2_nonneg (Zpos m)) as HL.
  assert (Hs : 0 <= e - 2 * e').
  { assert (He' : e' <= e / 2).
    { subst e'. rewrite (Z.div2_div e). apply Z.le_min_r. }
    pose proof (Z.mul_div_le e 2). lia. }
  set (m' := match e - 2 * e' with
             | Z0 => Zpos m
             | Zpos _ => Z.shiftl (Zpos m) (e - 2 * e')
             | Zneg _ => 0
             end).
  assert (Hm' : m' = Zpos m * 2 ^ (e - 2 * e')).
  { subst m'. destruct (e - 2 * e') as [|s|s] eqn:Es; try lia.
    now rewrite Z.shiftl_mul_pow2 by lia. }
  assert (Hlog : Z.log2 m' = Z.log2 (Zpos m) + (e - 2 * e')).
  { rewrite Hm', Z.log2_mul_pow2 by lia. lia. }
  assert (Hpos : 0 < m').
  { rewrite Hm'. apply Z.mul_pos_pos; [lia|apply Z.pow_pos_nonneg; lia]. }
  pose proof (Z.sqrtrem_sqrt m') as Hq.
  destruct (Z.sqrtrem m') as [q r]. cbn [fst] in Hq. subst q.
  set (k := Z.log2 m' / 2).
  assert (Hk : 0 <= k) by (subst k; apply Z.div_pos; lia).
  assert (Hle : 2 ^ k <= Z.sqrt m').
  { apply Z.sqrt_le_square; [lia|apply Z.pow_nonneg; lia|].
    rewrite <- Z.pow_add_r by lia.
    etransitivity; [|apply Z.log2_spec; assumption].
    apply Z.pow_le_mono_r; [lia|]. subst k.
    pose proof (Z.mul_div_le (Z.log2 m') 2). lia. }
  assert (H2k : 0 < 2 ^ k) by (apply Z.pow_pos_nonneg; lia).
  split; [lia|].
  rewrite Zdigits2_log2 by lia.
  assert (k <= Z.log2 (Z.sqrt m')) by (apply Z.log2_le_pow2; lia).
  subst k. rewrite Hlog in *.
  unfold SpecFloat.emin, prec, emax in He.
  replace (Z.log2 (Zpos m) + (e - 2 * e'))
    with (Z.log2 (Zpos m) + e + (- e') * 2) in * by lia.
  rewrite Z.div_add in * by lia.
  pose proof (Z.div_le_mono (-1074) (Z.log2 (Zpos m) + e) 2).
  change (-1074 / 2) with (-537) in *. lia.
Qed.

Lemma SFsqrt_magnitude m e :
  bounded prec emax m e = true ->
  (exists m' e',
      SFsqrt prec emax (S754_finite false m e) = S754_finite false m' e' /\
      -536 <= Zpos (digits2_pos m') + e') \/
  SFsqrt prec emax (S754_finite false m e) = S754_infinity false.
Proof.
  intros Hb. pose proof (@bounded_canonical _ _ Hb) as (He & _).
  cbn [SFsqrt].
  pose proof (@sqrt_core_magnitude m e He) as Hc.
  destruct (SFsqrt_core_binary prec emax (Zpos m) e) as [[q e'] l].
  destruct Hc as [Hq Hmag].
  destruct (@binary_round_aux_keeps false q e' l Hq)
    as [(m' & e'' & -> & Hk)| ->].
  - unfold SpecFloat.emin, prec, emax. lia.
  - left. exists m', e''. split; [reflexivity|lia].
  - now right.
Qed.

(** The square of such a number is not rounded to zero. *)
Lemma SFmul_self_keeps m e :
  -536 <= Zpos (digits2_pos m) + e ->
  (exists m' e',
      SFmul prec emax (S754_finite false m e) (S754_finite false m e)
      = S754_finite false m' e') \/
  SFmul prec emax (S754_finite false m e) (S754_finite false m e)
  = S754_infinity false.
Proof.
  intros Hmag. cbn [SFmul xorb].
  destruct (@binary_round_aux_keeps false (Zpos (m * m)) (e + e) loc_Exact)
    as [(m' & e' & -> & _)| ->]; eauto; [lia|].
  cbn [Zdigits2]. rewrite !digits_log2 in *.
  rewrite Pos2Z.inj_mul.
  pose proof (Z.log2_mul_below (Zpos m) (Zpos m)).
  unfold SpecFloat.emin, prec, emax. lia.
Qed.
End Binary64Sqrt.

(** * Order, signs and zeros in binary64 *)

Module Binary64Order.
Import Binary64 Binary64Rounding Binary64Sqrt.
Local Open Scope float_scope.

(** The sign of [d - t] is the order of [d] and [t], for a finite
    [t]. *)
Lemma sub_sign d t :
  is_finite t = true ->
  (d - t =? 0) = (d =? t) /\
  (d - t <? 0) = (d <? t) /\
  (0 <? d - t) = (t <? d).
Proof.
  intros Ht.
  pose proof (@SFsub_compare _ _ (Prim2SF_valid d) (Prim2SF_valid t)
                (@Binary64Facts.finite_cases _ Ht))
    as C.
  rewrite <- sub_spec in C.
  rewrite !FloatAxioms.eqb_spec, !ltb_spec. unfold SFeqb, SFltb.
  change (Prim2SF 0) with (S754_zero false).
  rewrite (SFcompare_antisym (Prim2SF (d - t)) (S754_zero false)).
  rewrite (SFcompare_antisym (Prim2SF d) (Prim2SF t)).
  rewrite C. repeat split.
Qed.

(** What [0 <? phi] leaves: a positive number, or plus infinity. *)
Lemma positive_cases phi :
  (0 <? phi) = true ->
  (exists m e, Prim2SF phi = S754_finite false m e) \/
  Prim2SF phi = S754_infinity false.
Proof.
  rewrite ltb_spec. change (Prim2SF 0) with (S754_zero false).
  destruct (Prim2SF phi) as [s|s| |s m e]; try discriminate.
  - destruct s; [discriminate|]. now right.
  - destruct s; [discriminate|]. left. eauto.
Qed.

(** The square of a positive square root is positive: it does not
    underflow to zero. *)
Lemma sqrt_square_positive s :
  (0 <? PrimFloat.sqrt s) = true -> (0 <? PrimFloat.sqrt s * PrimFloat.sqrt s) = true.
Proof.
  intros Hpos. pose proof (Prim2SF_valid s) as Vs.
  pose proof (sqrt_spec s) as Es.
  rewrite ltb_spec, mul_spec in *.
  change (Prim2SF 0) with (S754_zero false) in *.
  destruct (Prim2SF s) as [z|z| |z m e].
  - rewrite Es in Hpos. discriminate.
  - destruct z; rewrite Es in *; [discriminate|reflexivity].
  - rewrite Es in Hpos. discriminate.
  - destruct z; [rewrite Es in Hpos; discriminate|].
    cbn [SpecFloat.valid_binary] in Vs.
    destruct (@SFsqrt_magnitude _ _ Vs) as [(m' & e' & Eq & Hmag)|Eq];
      unfold SF64sqrt in Es; rewrite Eq in Es; rewrite Es.
    + unfold SF64mul.
      destruct (@SFmul_self_keeps _ _ Hmag) as [(m2 & e2 & ->)| ->];
        reflexivity.
    + reflexivity.
Qed.

Lemma sub_zero_r x : x - 0 = x.
Proof.
  apply Prim2SF_inj. rewrite sub_spec.
  change (Prim2SF 0) with (S754_zero false).
  destruct (Prim2SF x) as [s|s| |s m e]; try reflexivity.
  destruct s; reflexivity.
Qed.

(** A square does not see the sign. *)
Lemma square_abs x : x * x = abs x * abs x.
Proof.
  apply Prim2SF_inj. rewrite !mul_spec, abs_spec.
  destruct (Prim2SF x) as [s|s| |s m e]; try reflexivity;
    destruct s; reflexivity.
Qed.

(** ** Zeros *)

Lemma zero_plus : signed_zero 0.
Proof. now exists false. Qed.

Lemma mul_finite_zero x v :
  is_finite x = true -> signed_zero v -> signed_zero (x * v).
Proof.
  intros Hx [s Hv]. unfold signed_zero. rewrite mul_spec, Hv.
  destruct (@Binary64Facts.finite_cases _ Hx)
    as [[sx ->]|(sx & m & e & ->)];
    cbn; eauto.
Qed.

Lemma mul_zero_zero x y :
  signed_zero x -> signed_zero y -> signed_zero (x * y).
Proof.
  intros [s Hx] [s' Hy]. unfold signed_zero.
  rewrite mul_spec, Hx, Hy. cbn. eauto.
Qed.

Lemma square_zero x : signed_zero x -> x * x = 0.
Proof.
  intros [s Hx]. apply Prim2SF_inj. rewrite mul_spec, Hx.
  destruct s; reflexivity.
Qed.

Lemma add_zero_zero x y :
  signed_zero x -> signed_zero y -> signed_zero (x + y).
Proof.
  intros [s Hx] [s' Hy]. unfold signed_zero. rewrite add_spec, Hx, Hy.
  destruct s, s'; cbn; eauto.
Qed.

Lemma sub_zero_zero x y :
  signed_zero x -> signed_zero y -> signed_zero (x - y).
Proof.
  intros [s Hx] [s' Hy]. unfold signed_zero. rewrite sub_spec, Hx, Hy.
  destruct s, s'; cbn; eauto.
Qed.

Lemma add_plus_zero y : signed_zero y -> 0 + y = 0.
Proof.
  intros [s Hy]. apply Prim2SF_inj. rewrite add_spec, Hy.
  destruct s; reflexivity.
Qed.

Lemma sub_plus_zero y : signed_zero y -> 0 - y = 0.
Proof.
  intros [s Hy]. apply Prim2SF_inj. rewrite sub_spec, Hy.
  destruct s; reflexivity.
Qed.

Lemma div_zero_positive x phi :
  signed_zero x -> (0 <? phi) = true -> signed_zero (x / phi).
Proof.
  intros [s Hx] Hphi. unfold signed_zero. rewrite div_spec, Hx.
  destruct (@positive_cases _ Hphi) as [(m & e & ->)| ->]; cbn; eauto.
Qed.

Lemma div_plus_zero_positive phi : (0 <? phi) = true -> 0 / phi = 0.
Proof.
  intros Hphi. apply Prim2SF_inj. rewrite div_spec.
  change (Prim2SF 0) with (S754_zero false).
  destruct (@positive_cases _ Hphi) as [(m & e & ->)| ->]; reflexivity.
Qed.

(** ** Sums and products of lists with zeros *)

Lemma fold_add_zero (l : list float) a :
  signed_zero a -> Forall signed_zero l ->
  signed_zero (fold_left PrimFloat.add l a).
Proof.
  intros Ha Hl. revert a Ha.
  induction Hl as [|x l Hx _ IH]; intros a Ha; cbn [fold_left].
  - assumption.
  - apply IH. now apply add_zero_zero.
Qed.

Lemma sum_zero (l : list float) :
  Forall signed_zero l -> signed_zero (sum l).
Proof.
  intros Hl. destruct Hl as [|x l Hx Hl]; cbn [sum].
  - apply zero_plus.
  - now apply fold_add_zero.
Qed.

Lemma fold_add_plus_zero (l : list float) :
  Forall (fun x => x = 0) l -> fold_left PrimFloat.add l 0 = 0.
Proof.
  induction 1 as [|x l -> _ IH]; cbn [fold_left]; [reflexivity|].
  exact IH.
Qed.

Lemma sum_plus_zero (l : list float) :
  Forall (fun x => x = 0) l -> sum l = 0.
Proof.
  intros Hl. destruct Hl as [|x l -> Hl]; cbn [sum]; [reflexivity|].
  now apply fold_add_plus_zero.
Qed.

Lemma dot_finite_zero (a v : VectorX float) :
  finite_vector a -> Forall signed_zero v -> signed_zero (dot a v).
Proof.
  intros Ha Hv. unfold dot. apply sum_zero.
  revert v Hv. induction Ha as [|x a Hx _ IH]; intros v Hv.
  - constructor.
  - destruct Hv as [|y v Hy Hv]; cbn [combine map]; constructor.
    + now apply mul_finite_zero.
    + now apply IH.
Qed.

Lemma mvmul_finite_zero (M : MatrixX float) (v : VectorX float) :
  finite_matrix M -> Forall signed_zero v -> Forall signed_zero (mvmul M v).
Proof.
  intros HM Hv. unfold mvmul.
  induction HM as [|r M Hr _ IH]; cbn [map]; constructor.
  - now apply dot_finite_zero.
  - exact IH.
Qed.

Lemma squaredNorm_zero (a : VectorX float) :
  Forall signed_zero a -> squaredNorm a = 0.
Proof.
  intros Ha. unfold squaredNorm. apply sum_plus_zero.
  induction Ha as [|x a Hx _ IH]; cbn [map]; constructor.
  - now apply square_zero.
  - exact IH.
Qed.

Lemma vsub_zero3 (a b : Vector3 float) :
  signed_zero3 a -> signed_zero3 b ->
  Forall signed_zero (vsub (to_VectorX a) (to_VectorX b)).
Proof.
  destruct a as [[a1 a2] a3], b as [[b1 b2] b3].
  intros (H1 & H2 & H3) (K1 & K2 & K3).
  cbn. repeat constructor; now apply sub_zero_zero.
Qed.

(** Subtracting a buffer of zeros changes no bit. *)
Lemma msub_filled_zero n (f g : nat -> Vector3 float) :
  (forall j, (j < n)%nat -> g j = (0, 0, 0)) ->
  msub (filled n f) (filled n g) = filled n f.
Proof.
  intros Hg. rewrite msub_filled. unfold filled.
  apply map_ext. intros i. apply map_ext_in. intros j Hj.
  apply in_seq in Hj. rewrite Hg by lia.
  cbn [sub Scalar_binary64].
  destruct i as [|[|i]]; apply sub_zero_r.
Qed.

(** The squared norm sees the absolute values only. *)
Lemma squaredNorm_abs (a b : VectorX float) :
  map abs a = map abs b -> squaredNorm a = squaredNorm b.
Proof.
  intros Hab. unfold squaredNorm. f_equal.
  transitivity (map (fun x => x * x) (map abs a)).
  - rewrite map_map. apply map_ext. intros x. apply square_abs.
  - rewrite Hab, map_map. apply map_ext. intros x. symmetry.
    apply square_abs.
Qed.

Lemma finite_concat (M : MatrixX float) :
  finite_matrix M -> finite_vector (as_vector M).
Proof.
  unfold as_vector, finite_vector. intros HM.
  induction HM as [|r M Hr _ IH]; cbn [concat].
  - constructor.
  - apply Forall_app. now split.
Qed.
End Binary64Order.

(** * Finite results have finite operands *)

Module Binary64Finite.
Import Binary64.
Local Open Scope float_scope.

Lemma finite_of_cases x :
  (exists s, Prim2SF x = S754_zero s) \/
  (exists s m e, Prim2SF x = S754_finite s m e) ->
  is_finite x = true.
Proof.
  unfold is_finite, is_nan, is_infinity.
  rewrite !FloatAxioms.eqb_spec, abs_spec.
  change (Prim2SF infinity) with (S754_infinity false).
  intros [[s ->]|(s & m & e & ->)]; unfold SFeqb; cbn.
  - reflexivity.
  - rewrite Z.compare_refl, Pos.compare_cont_refl.
    destruct s; reflexivity.
Qed.

Lemma finite_mul x y :
  is_finite (x * y) = true -> is_finite x = true /\ is_finite y = true.
Proof.
  intros H. apply Binary64Facts.finite_cases in H.
  rewrite mul_spec in H.
  split; apply finite_of_cases;
    destruct (Prim2SF x) as [sx|sx| |sx mx ex],
             (Prim2SF y) as [sy|sy| |sy my ey];
    cbn in H; eauto 6;
    destruct H as [[s H]|(s & m & e & H)]; discriminate.
Qed.

Lemma finite_add x y :
  is_finite (x + y) = true -> is_finite x = true /\ is_finite y = true.
Proof.
  intros H. apply Binary64Facts.finite_cases in H.
  rewrite add_spec in H.
  split; apply finite_of_cases;
    destruct (Prim2SF x) as [sx|sx| |sx mx ex],
             (Prim2SF y) as [sy|sy| |sy my ey];
    cbn in H; eauto 6;
    try (destruct sx, sy; cbn in H);
    destruct H as [[s H]|(s & m & e & H)]; discriminate.
Qed.

Lemma finite_div x y : is_finite (x / y) = true -> is_finite x = true.
Proof.
  intros H. apply Binary64Facts.finite_cases in H.
  rewrite div_spec in H.
  apply finite_of_cases;
    destruct (Prim2SF x) as [sx|sx| |sx mx ex],
             (Prim2SF y) as [sy|sy| |sy my ey];
    cbn in H; eauto 6;
    destruct H as [[s H]|(s & m & e & H)]; discriminate.
Qed.

(** A finite projection [a . b / phi] of three coefficients comes from
    finite coefficients. *)
Lemma finite_projection (a b : Vector3 float) phi :
  is_finite (div (dot (to_VectorX a) (to_VectorX b)) phi) = true ->
  finite3 b.
Proof.
  destruct a as [[a1 a2] a3], b as [[b1 b2] b3].
  cbn [to_VectorX dot combine map fst snd sum fold_left
       add mul div Scalar_binary64 finite3].
  intros H. apply finite_div, finite_add in H. destruct H as [H H3].
  apply finite_add in H. destruct H as [H1 H2].
  apply finite_mul in H1, H2, H3. tauto.
Qed.

Lemma finite_filled n (h : nat -> Vector3 float) :
  (forall j, (j < n)%nat -> finite3 (h j)) -> finite_matrix (filled n h).
Proof.
  intros Hh. unfold finite_matrix, finite_vector, filled.
  apply Forall_map, Forall_forall. intros i _.
  apply Forall_map, Forall_forall. intros j Hj. apply in_seq in Hj.
  specialize (Hh j ltac:(lia)). destruct (h j) as [[x y] z].
  destruct Hh as (Hx & Hy & Hz). destruct i as [|[|i]]; assumption.
Qed.

(** If the row [a^T (M_A - M_B) / phi] has not overflowed, the matrix
    [M_A - M_B] is finite. *)
Lemma finite_row_matrix (a : Vector3 float) n (f g : nat -> Vector3 float)
    phi :
  finite_matrix
    (mdiv (mmul (transpose (to_VectorX a))
                (msub (filled n f) (filled n g))) phi) ->
  finite_matrix (msub (filled n f) (filled n g)).
Proof.
  set (h := fun j =>
              (sub (coeff3 (f j) 0) (coeff3 (g j) 0),
               sub (coeff3 (f j) 1) (coeff3 (g j) 1),
               sub (coeff3 (f j) 2) (coeff3 (g j) 2))).
  assert (E : msub (filled n f) (filled n g) = filled n h)
    by (rewrite msub_filled; reflexivity).
  rewrite E, row_times_filled. unfold mdiv. cbn [map].
  intros H. apply Forall_inv in H. unfold finite_vector in H.
  rewrite map_map, Forall_map, Forall_forall in H.
  apply finite_filled. intros j Hj.
  apply (@finite_projection a (h j) phi), H, in_seq. lia.
Qed.
End Binary64Finite.

(** * The calls as steps: what a read-only engine leaves *)

Module WithEffectsFacts.
Section Reads.
Variable T : Type.
Context `{Scalar T}.
Variables Context Frame : Type.
Variable E : WithEffects.Footprint T Context Frame.
Variable m : Machine T Context Frame.
Hypothesis reads : WithEffects.read_only E.

Lemma EvalFull_leaves :
  WithEffects.EvalFull E m = (call EvalFull (self m) (context m), m).
Proof.
  destruct reads as (_ & _ & Hp & _).
  destruct m as [e c].
  unfold WithEffects.EvalFull, WithEffects.query, bind, this, ret.
  cbn [self context]. now rewrite Hp.
Qed.

Lemma EvalFullJacobian_leaves :
  WithEffects.EvalFullJacobian E m
  = (call EvalFullJacobian (self m) (context m), m).
Proof.
  destruct reads as (Hn & _ & Hp & Hj & _).
  destruct m as [e c].
  unfold WithEffects.EvalFullJacobian, WithEffects.query, bind, this, ret.
  cbn [self context]. now rewrite Hp, Hn, Hj.
Qed.

Lemma EvalFullJacobianDotTimesV_leaves :
  WithEffects.EvalFullJacobianDotTimesV E m
  = (call EvalFullJacobianDotTimesV (self m) (context m), m).
Proof.
  destruct reads as (Hn & Hw & Hp & Hj & Hb & Hv).
  destruct m as [e c].
  unfold WithEffects.EvalFullJacobianDotTimesV, WithEffects.query,
    bind, this, ret.
  cbn [self context].
  now rewrite Hw, !Hp, !Hn, !Hj, !Hb, !Hv.
Qed.
End Reads.

(** An engine that writes is seen: with the footprint that forgets the
    velocities, [EvalFull] leaves another context than it was handed. *)
Example a_write_of_the_engine_shows :
  context
    (snd (WithEffects.EvalFull WithEffects.forgetful
            {| self := PointMasses.apart; context := PointMasses.home |}))
  = ([0; 0]%float, []).
Proof. reflexivity. Qed.
End WithEffectsFacts.

(** * The Jacobian *)



(** * The bias term *)



(** C3.  In binary64, at zero generalized velocity
    [EvalFullJacobianDotTimesV] returns exactly [+0] where the norm
    [phi] it computes is positive, the world-frame difference [rel_pos]
    is finite and the row [rel_pos^T J_rel / phi] has not overflowed;
    the engine is taken to return zeros for the bias accelerations at
    zero velocity.  Outside these conditions the method returns NaN at
    zero velocity, also for points that do not coincide. *)
Theorem bias_vanishes_at_zero_velocity
    (Context Frame : Type) (e : DistanceEvaluator float Context Frame)
    (c : Context) :
  Binary64.bias_vanishes_at_rest (plant e) ->
  Forall Binary64.signed_zero (GetVelocities (plant e) c) ->
  (0 <? norm (rel_pos_W e c))%float = true ->
  Binary64.finite_vector (rel_pos_W e c) ->
  Binary64.finite_matrix (call EvalFullJacobianDotTimesV_J e c) ->
  call EvalFullJacobianDotTimesV e c = [0%float].
Proof.
  intros Hrest Hv Hphi Hpos HJ.
  assert (HJrel : Binary64.finite_matrix (J_rel_W e c)).
  { pose proof HJ as HJ'. rewrite EvalFullJacobianDotTimesV_J_eq in HJ'.
    assert (Ea : exists a, rel_pos_W e c = to_VectorX a).
    { unfold rel_pos_W.
      destruct (CalcPointsPositions (plant e) c (frame_A_ e) _ _)
        as [[x y] z].
      destruct (CalcPointsPositions (plant e) c (frame_B_ e) _ _)
        as [[x' y'] z'].
      now exists (sub x x', sub y y', sub z z'). }
    destruct Ea as [a Ea]. rewrite Ea in HJ'.
    exact (@Binary64Finite.finite_row_matrix _ _ _ _ _ HJ'). }
  rewrite EvalFullJacobianDotTimesV_eq. cbv zeta.
  pose proof (Binary64Order.mvmul_finite_zero HJrel Hv) as HJv.
  rewrite (Binary64Order.squaredNorm_zero HJv).
  assert (Ha : Binary64.signed_zero
                 (dot (rel_pos_W e c) (J_rel_dot_times_v_W e c))).
  { apply Binary64Order.dot_finite_zero; [assumption|].
    unfold J_rel_dot_times_v_W.
    apply Binary64Order.vsub_zero3; now apply Hrest. }
  assert (Hd : Binary64.signed_zero
                 (mul (dot (as_vector (call EvalFullJacobianDotTimesV_J e c))
                         (GetVelocities (plant e) c))
                      (dot (rel_pos_W e c)
                         (mvmul (J_rel_W e c) (GetVelocities (plant e) c))))).
  { apply Binary64Order.mul_zero_zero.
    - apply Binary64Order.dot_finite_zero; [|assumption].
      now apply Binary64Order.finite_concat.
    - now apply Binary64Order.dot_finite_zero. }
  assert (Hphi2 : (0 <? norm (rel_pos_W e c) * norm (rel_pos_W e c))%float
                  = true)
    by (apply Binary64Order.sqrt_square_positive, Hphi).
  cbn [add sub mul div Scalar_binary64] in *.
  rewrite (Binary64Order.div_plus_zero_positive Hphi).
  rewrite (Binary64Order.add_plus_zero
             (Binary64Order.div_zero_positive Ha Hphi)).
  now rewrite (Binary64Order.sub_plus_zero
                 (Binary64Order.div_zero_positive Hd Hphi2)).
Qed.

Lemma bias_vanishes_at_zero_velocity_witness :
  call EvalFullJacobianDotTimesV PointMasses.apart PointMasses.home
  = [0%float].
Proof.
  apply (@bias_vanishes_at_zero_velocity _ _ PointMasses.apart
           PointMasses.home).
  - intros c F p A E _. cbn. repeat split; now exists false.
  - repeat constructor; now exists false.
  - reflexivity.
  - repeat constructor.
  - repeat constructor.
Defined.

(** A slide at rest whose point is [2^500] from the origin, behind a
    gear of ratio [2^600]: the velocity is zero, the points are apart,
    the norm is the number [2^500], and the product [rel_pos^T J_rel]
    overflows; the method returns NaN.  So it does where the square of
    the separation underflows, and where a position overflows. *)
Lemma bias_is_nan_at_zero_velocity :
  (GetVelocities Geared.plant Geared.resting = [0%float] /\
   norm (rel_pos_W Geared.evaluator Geared.resting) = 0x1p500%float /\
   call EvalFullJacobianDotTimesV Geared.evaluator Geared.resting
   = [nan]) /\
  (GetVelocities PointMasses.plant PointMasses.home = [0; 0]%float /\
   rel_pos_W PointMasses.nearly_coincident PointMasses.home
   = [0x1p-600; 0; 0]%float /\
   call EvalFullJacobianDotTimesV PointMasses.nearly_coincident
     PointMasses.home = [nan]) /\
  (GetVelocities PointMasses.plant PointMasses.far_out = [0; 0]%float /\
   norm (rel_pos_W PointMasses.beyond PointMasses.far_out) = infinity /\
   call EvalFullJacobianDotTimesV PointMasses.beyond PointMasses.far_out
   = [nan]).
Proof. repeat split; vm_compute; reflexivity. Qed.

(** * The residual *)

(** C4.  The residual has one entry: the norm of (point A in the
    coordinates of frame B, less point B), less the target distance,
    each operation rounded to binary64.  With [d] the norm as computed
    and a finite target, the residual is zero exactly when [d] equals
    the target, positive when [d] exceeds it and negative when [d] is
    below it.  The norm as computed need not be the separation, so that
    the residual at the exact target separation may be off zero. *)
Theorem residual_is_separation_minus_target
    (Context Frame : Type) (e : DistanceEvaluator float Context Frame)
    (c : Context) :
  let d :=
    norm (vsub (to_VectorX
                  (CalcPointsPositions (plant e) c (frame_A_ e) (pt_A_ e)
                     (frame_B_ e)))
               (to_VectorX (pt_B_ e))) in
  let target : float := distance_ e in
  is_finite target = true ->
  exists r : float,
    call EvalFull e c = [r] /\
    r = (d - target)%float /\
    (r =? 0)%float = (d =? target)%float /\
    (0 <? r)%float = (target <? d)%float /\
    (r <? 0)%float = (d <? target)%float.
Proof.
  intros d target Ht. exists (d - target)%float.
  destruct (@Binary64Order.sub_sign d _ Ht) as (Heq & Hlt & Hgt).
  repeat split; try assumption.
  rewrite EvalFull_eq. unfold rel_pos_B.
  now rewrite !Binary64Facts.cast3_binary64.
Qed.

Lemma residual_is_separation_minus_target_witness :
  exists r : float,
    call EvalFull PointMasses.apart PointMasses.home = [r] /\
    r = (norm (vsub (to_VectorX
                       (PointMasses.position PointMasses.home
                          PointMasses.MassA (0, 0, 0)%float
                          PointMasses.MassB))
                    [1; 0; 0]%float) - 0.5)%float /\
    (r =? 0)%float = false /\
    (0 <? r)%float = true /\
    (r <? 0)%float = false.
Proof.
  apply (@residual_is_separation_minus_target _ _ PointMasses.apart
           PointMasses.home); reflexivity.
Defined.

(** Point A at [(7 k, 24 k, 0)] from point B and the target [25 k]: the
    separation is the target exactly, and the residual is [-2^-23], a
    negative number. *)
Lemma residual_off_zero_at_the_target :
  QArith_base.Qeq
    (Binary64.squared_length 221448017 759250344 0)
    (QArith_base.Qmult (Binary64.value 790885775)
                       (Binary64.value 790885775)) /\
  call EvalFull PointMasses.pythagorean PointMasses.home
  = [(-0x1p-23)%float] /\
  ((-0x1p-23) =? 0)%float = false /\
  ((-0x1p-23) <? 0)%float = true.
Proof. repeat split; vm_compute; reflexivity. Qed.

(** * One Jacobian, two frames *)




(** * Coincident points *)

(** C6.  Nothing guards the division by the norm.  In binary64, when
    point A lands exactly on point B (finite coordinates), the two
    methods still evaluate their formulas: every entry of the Jacobian
    and the bias are NaN, returned as ordinary values. *)
Theorem coincident_points_give_nan
    (Context Frame : Type) (e : DistanceEvaluator float Context Frame)
    (c : Context) :
  let P := plant e in
  let W := world_frame P in
  Binary64.finite3 (pt_B_ e) ->
  CalcPointsPositions P c (frame_A_ e) (pt_A_ e) (frame_B_ e) = pt_B_ e ->
  Binary64.finite3
    (CalcPointsPositions P c (frame_B_ e) (pt_B_ e) W) ->
  CalcPointsPositions P c (frame_A_ e) (pt_A_ e) W
    = CalcPointsPositions P c (frame_B_ e) (pt_B_ e) W ->
  call EvalFullJacobian e c = [repeat nan (num_velocities P)] /\
  call EvalFullJacobianDotTimesV e c = [nan].
Proof.
  intros P W HfB HB HfW HW. split.
  - rewrite EvalFullJacobian_eq. unfold rel_pos_B. fold P.
    rewrite !Binary64Facts.cast3_binary64, HB,
      (Binary64Facts.vsub_self _ HfB).
    rewrite row_times_filled. unfold mdiv. cbn [map]. rewrite map_map.
    f_equal.
    transitivity (map (fun _ : nat => nan) (seq 0 (num_velocities P))).
    + apply map_ext. intros j. apply Binary64Facts.zero_projection.
    + now rewrite map_const, length_seq.
  - rewrite EvalFullJacobianDotTimesV_eq. cbv zeta.
    unfold rel_pos_W, J_rel_dot_times_v_W. fold P W.
    rewrite !Binary64Facts.cast3_binary64, HW,
      (Binary64Facts.vsub_self _ HfW).
    set (a_A := translational _). set (a_B := translational _).
    assert (E : exists a, vsub (to_VectorX a_A) (to_VectorX a_B)
                          = to_VectorX a).
    { destruct a_A as [[x y] z], a_B as [[x' y'] z'].
      now exists (sub x x', sub y y', sub z z'). }
    destruct E as [a ->].
    rewrite Binary64Facts.zero_projection.
    cbn [add sub Scalar_binary64].
    now rewrite Binary64Facts.add_nan_r, Binary64Facts.sub_nan_l.
Qed.

Lemma coincident_points_give_nan_witness :
  call EvalFullJacobian PointMasses.coincident PointMasses.home
    = [[nan; nan]] /\
  call EvalFullJacobianDotTimesV PointMasses.coincident PointMasses.home
    = [nan].
Proof.
  apply (@coincident_points_give_nan _ _ PointMasses.coincident
           PointMasses.home).
  - vm_compute. repeat split.
  - vm_compute. reflexivity.
  - vm_compute. repeat split.
  - vm_compute. reflexivity.
Defined.

(** * Shape *)

(** C7.  The row count of a distance evaluator is the 1 its constructor
    hands to the base class; no method changes it; and for every context
    the residual has one entry and the Jacobian one row and as many
    columns as the model has velocities. *)
Theorem distance_evaluator_has_one_row
    (T : Type) `{Scalar T} (Context Frame : Type)
    (P : MultibodyPlant T Context Frame)
    (pt_A : Vector3 double) (frame_A : Frame)
    (pt_B : Vector3 double) (frame_B : Frame) (distance : double)
    (c : Context) :
  let e := new_DistanceEvaluator P pt_A frame_A pt_B frame_B distance in
  let m := {| self := e; context := c |} in
  length_ (base e) = 1 /\
  length_ (base (self (snd (EvalFull m)))) = 1 /\
  length_ (base (self (snd (EvalFullJacobian m)))) = 1 /\
  length_ (base (self (snd (EvalFullJacobianDotTimesV m)))) = 1 /\
  length (call EvalFull e c) = 1 /\
  rows (call EvalFullJacobian e c) = 1 /\
  cols (call EvalFullJacobian e c) = num_velocities P.
Proof.
  intros e m.
  rewrite EvalFull_reads, EvalFullJacobian_reads,
    EvalFullJacobianDotTimesV_reads.
  repeat split.
  rewrite EvalFullJacobian_eq, cols_mdiv, cols_row_times.
  apply cols_filled.
Qed.

(** * The scenario with two point masses *)

(** C8.  In binary64, with point A at the origin of frame A, the two
    frames coincident (so that the engine places A's origin at B's), and
    target distance 0.5: the residual is 0.5 with point B at (1,0,0) and
    0 with point B at (0.5,0,0). *)
Theorem residual_of_two_point_masses
    (Context Frame : Type) (P : MultibodyPlant float Context Frame)
    (frame_A frame_B : Frame) (c : Context) :
  CalcPointsPositions P c frame_A (0, 0, 0)%float frame_B
    = (0, 0, 0)%float ->
  call EvalFull
    (new_DistanceEvaluator P (0, 0, 0)%float frame_A
       (1, 0, 0)%float frame_B 0.5%float) c = [0.5%float] /\
  call EvalFull
    (new_DistanceEvaluator P (0, 0, 0)%float frame_A
       (0.5, 0, 0)%float frame_B 0.5%float) c = [0%float].
Proof.
  intros Hpos. rewrite !EvalFull_eq. unfold rel_pos_B.
  cbn [plant base plant_ new_DistanceEvaluator frame_A_ frame_B_ pt_A_
       pt_B_ distance_ cast3 cast Scalar_binary64].
  rewrite Hpos. split; vm_compute; reflexivity.
Qed.

Lemma residual_of_two_point_masses_witness :
  call EvalFull PointMasses.apart PointMasses.home = [0.5%float] /\
  call EvalFull PointMasses.at_target PointMasses.home = [0%float].
Proof.
  apply (@residual_of_two_point_masses _ _ PointMasses.plant
           PointMasses.MassA PointMasses.MassB PointMasses.home).
  vm_compute. reflexivity.
Defined.

(** * Purity *)



(** * Symmetry of the residual *)




(** * The search loop of the wrapper script *)

Module BazelWrapperFacts.
Import Ascii String BazelWrapper.

Lemma drop_while_suffix p s : is_suffix (drop_while p s) s.
Proof.
  induction s as [|a s IH]; simpl.
  - now exists [].
  - destruct (p a).
    + destruct IH as [q E]. exists (a :: q). simpl. now rewrite <- E.
    + now exists [].
Qed.

Lemma is_suffix_trans a b c : is_suffix a b -> is_suffix b c -> is_suffix a c.
Proof. intros [p ->] [q ->]. exists (q ++ p). now rewrite app_assoc. Qed.

Lemma is_suffix_length a b : is_suffix a b -> List.length a <= List.length b.
Proof. intros [p ->]. rewrite length_app. lia. Qed.

Lemma drop_while_head p s a r : drop_while p s = a :: r -> p a = false.
Proof.
  induction s as [|b s IH]; simpl; [discriminate|].
  destruct (p b) eqn:E; [exact IH|]. intros [= -> _]. exact E.
Qed.

(** The reverse of a non-empty suffix of [rev ("/" :: t)] is an absolute prefix. *)
Lemma rev_suffix_absolute t r :
  r <> [] -> is_suffix r (rev ("/"%char :: t)) ->
  absolute (rev r) /\ is_prefix (rev r) ("/"%char :: t).
Proof.
  intros Hr [p E].
  assert (E' : "/"%char :: t = rev r ++ rev p).
  { rewrite <- rev_app_distr, <- E. now rewrite rev_involutive. }
  split.
  - destruct (rev r) as [|a u] eqn:Er.
    + apply (f_equal (@rev ascii)) in Er. rewrite rev_involutive in Er. now subst.
    + simpl in E'. injection E' as <- _. now exists u.
  - now exists (rev p).
Qed.

Lemma root_absolute : absolute (lit "/").
Proof. now exists []. Qed.

Lemma root_prefix t : is_prefix (lit "/") ("/"%char :: t).
Proof. now exists t. Qed.

Lemma dirname_absolute t :
  let s := "/"%char :: t in
  absolute (dirname s) /\ is_prefix (dirname s) s /\
  (t <> [] -> List.length (dirname s) < List.length s).
Proof.
  intros s. unfold dirname.
  assert (Hs1 := drop_while_suffix is_slash (rev s)).
  destruct (drop_while is_slash (rev s)) as [|a r] eqn:E1.
  - subst s. simpl. repeat split; [apply root_absolute | apply root_prefix |].
    destruct t; [congruence | simpl; intros; lia].
  - assert (Ha := drop_while_head _ _ E1).
    cbv zeta.
    assert (Hs2 := drop_while_suffix (fun c => negb (is_slash c)) (a :: r)).
    assert (Hlen2 : List.length (drop_while (fun c => negb (is_slash c)) (a :: r))
                    <= List.length r).
    { simpl. rewrite Ha. simpl. apply is_suffix_length, drop_while_suffix. }
    set (r2 := drop_while (fun c => negb (is_slash c)) (a :: r)) in *.
    assert (Hs3 := drop_while_suffix is_slash r2).
    assert (Hlen : List.length (a :: r) <= List.length s).
    { apply is_suffix_length in Hs1. now rewrite length_rev in Hs1. }
    destruct (drop_while is_slash r2) as [|b r3] eqn:E3.
    + (* r2 is not empty: the leading slash is in every non-empty suffix *)
      assert (Hr2 : r2 <> []).
      { intros E2. 
        assert (Hall : forall x, In x (a :: r) -> is_slash x = false).
        { clear -E2. subst r2. induction (a :: r) as [|c l IH]; simpl; [tauto|].
          simpl in E2. destruct (is_slash c) eqn:Ec; simpl in E2; [discriminate|].
          intros x [<-|Hx]; auto. }
        destruct Hs1 as [p Ep]. subst s. simpl in Ep.
        assert (Hin : In "/"%char (a :: r)).
        { assert (Hin' : In "/"%char (p ++ a :: r)) by (rewrite <- Ep; apply in_or_app; right; now left).
          destruct (@exists_last _ (a :: r)) as (l' & z & El); [discriminate|].
          rewrite El in Ep. rewrite app_assoc in Ep. apply app_inj_tail in Ep.
          destruct Ep as [_ <-]. rewrite El. apply in_or_app. right. now left. }
        specialize (Hall _ Hin). discriminate. }
      destruct r2; [congruence|].
      subst s. repeat split; [apply root_absolute | apply root_prefix |].
      destruct t; [congruence | simpl; intros; lia].
    + assert (Hsuf : is_suffix (b :: r3) (rev s)).
      { eapply is_suffix_trans; [|exact Hs1].
        eapply is_suffix_trans; [exact Hs3 | exact Hs2]. }
      destruct (@rev_suffix_absolute t (b :: r3)) as [H1 H2]; [discriminate | exact Hsuf |].
      repeat split; auto. intros _.
      rewrite length_rev. apply is_suffix_length in Hs3.
      simpl in *. lia.
Qed.

Lemma is_prefix_refl a : is_prefix a a.
Proof. exists []. now rewrite app_nil_r. Qed.

Lemma is_prefix_trans a b c : is_prefix a b -> is_prefix b c -> is_prefix a c.
Proof. intros [p ->] [q ->]. exists (p ++ q). now rewrite app_assoc. Qed.

Lemma is_prefix_length a b : is_prefix a b -> List.length a <= List.length b.
Proof. intros [p ->]. rewrite length_app. lia. Qed.

Lemma is_prefix_app a b c : is_prefix a b -> is_prefix a (b ++ c).
Proof. intros [p ->]. exists (p ++ c). now rewrite app_assoc. Qed.

(** Command substitution keeps an absolute output absolute and only cuts
    at the end. *)
Lemma command_substitution_absolute t :
  let s := "/"%char :: t in
  absolute (command_substitution s) /\ is_prefix (command_substitution s) s.
Proof.
  intros s. unfold command_substitution.
  assert (Hs := drop_while_suffix is_newline (rev s)).
  destruct (drop_while is_newline (rev s)) as [|a r] eqn:E.
  - exfalso.
    assert (Hall : forall x, In x (rev s) -> is_newline x = true).
    { clear -E. induction (rev s) as [|c l IH]; simpl; [tauto|].
      simpl in E. destruct (is_newline c) eqn:Ec; [|discriminate].
      intros x [<-|Hx]; auto. }
    specialize (Hall "/"%char). rewrite <- in_rev in Hall.
    specialize (Hall (or_introl eq_refl)). discriminate.
  - apply rev_suffix_absolute; [discriminate | exact Hs].
Qed.

Lemma command_substitution_prefix x : is_prefix (command_substitution x) x.
Proof.
  unfold command_substitution.
  destruct (drop_while_suffix is_newline (rev x)) as [p Ep].
  exists (rev p). rewrite <- rev_app_distr, <- Ep. now rewrite rev_involutive.
Qed.

(** The newline a command prints after its result is removed. *)
Lemma command_substitution_line x :
  command_substitution (x ++ [newline])
  = command_substitution x.
Proof.
  unfold command_substitution. now rewrite rev_app_distr.
Qed.

Lemma parent_absolute t :
  let s := "/"%char :: t in
  absolute (parent s) /\ is_prefix (parent s) s /\
  (t <> [] -> List.length (parent s) < List.length s).
Proof.
  intros s. unfold parent. rewrite command_substitution_line.
  destruct (dirname_absolute t) as ([u Eu] & Hp & Hl). fold s in Eu, Hp, Hl.
  assert (Hcut := command_substitution_prefix (dirname s)).
  rewrite Eu in *.
  destruct (command_substitution_absolute u) as [Ha _].
  split; [exact Ha|]. split.
  - eapply is_prefix_trans; eassumption.
  - intros Ht. specialize (Hl Ht). apply is_prefix_length in Hcut. lia.
Qed.

Lemma str_eqb_eq a b : str_eqb a b = true <-> a = b.
Proof. unfold str_eqb. destruct (list_eq_dec ascii_dec a b); split; congruence. Qed.

Lemma str_eqb_neq a b : str_eqb a b = false <-> a <> b.
Proof. unfold str_eqb. destruct (list_eq_dec ascii_dec a b); split; congruence. Qed.

Lemma find_workspace_step fs fuel dir :
  find_workspace fs (S fuel) dir =
  if str_eqb dir (lit "/") then Some dir
  else if fs (dir ++ lit "/WORKSPACE") then Some dir
       else find_workspace fs fuel (parent dir).
Proof. reflexivity. Qed.

(** From an absolute directory the search ends, within as many rounds as
    the directory has characters, on an absolute prefix of it. *)
Lemma find_workspace_terminates fs fuel dir :
  absolute dir -> List.length dir <= fuel ->
  exists found,
    find_workspace fs fuel dir = Some found /\
    absolute found /\ is_prefix found dir.
Proof.
  revert dir. induction fuel as [|fuel IH]; intros dir [t ->] Hlen.
  - simpl in Hlen. lia.
  - rewrite find_workspace_step.
    destruct (str_eqb ("/"%char :: t) (lit "/")) eqn:Eroot.
    { eexists. split; [reflexivity|]. split; [now exists t | apply is_prefix_refl]. }
    destruct (fs _).
    { eexists. split; [reflexivity|]. split; [now exists t | apply is_prefix_refl]. }
    apply str_eqb_neq in Eroot.
    assert (Ht : t <> []) by (intros ->; now apply Eroot).
    destruct (parent_absolute t) as (Ha & Hp & Hl). specialize (Hl Ht).
    destruct (IH (parent ("/"%char :: t)) Ha) as (found & E & Hfa & Hfp).
    { simpl in *. lia. }
    exists found. split; [exact E|]. split; [exact Hfa|].
    eapply is_prefix_trans; eassumption.
Qed.

(** Whatever the search returns is the root or holds a [WORKSPACE]. *)
Lemma find_workspace_post fs fuel dir found :
  find_workspace fs fuel dir = Some found ->
  found = lit "/" \/ fs (found ++ lit "/WORKSPACE") = true.
Proof.
  revert dir. induction fuel as [|fuel IH]; intros dir; [discriminate|].
  rewrite find_workspace_step.
  destruct (str_eqb dir (lit "/")) eqn:Eroot.
  { intros [= <-]. left. now apply str_eqb_eq. }
  destruct (fs (dir ++ lit "/WORKSPACE")) eqn:Ews.
  { intros [= <-]. now right. }
  apply IH.
Qed.

(** More rounds do not change what was found. *)
Lemma find_workspace_more_fuel fs fuel fuel' dir found :
  find_workspace fs fuel dir = Some found -> fuel <= fuel' ->
  find_workspace fs fuel' dir = Some found.
Proof.
  revert fuel' dir. induction fuel as [|fuel IH]; intros fuel' dir;
    [discriminate|].
  intros E Hle. destruct fuel' as [|fuel']; [lia|].
  rewrite find_workspace_step in *.
  destruct (str_eqb dir (lit "/")); [exact E|].
  destruct (fs (dir ++ lit "/WORKSPACE")); [exact E|].
  apply IH; [exact E | lia].
Qed.

Lemma iter_parent_shift n dir :
  Nat.iter (S n) parent dir = Nat.iter n parent (parent dir).
Proof. induction n; simpl; [reflexivity | now rewrite <- IHn]. Qed.

(** ** Where the search looks *)

(** The parent of an absolute directory is [/], or ends in the last
    character of a component. *)
Lemma dirname_cases t :
  let s := "/"%char :: t in
  dirname s = lit "/" \/
  exists b r,
    dirname s = rev (b :: r) /\ is_slash b = false /\
    is_suffix (b :: r) (rev s).
Proof.
  intros s. destruct (dirname_absolute t) as [Habs _]. fold s in Habs.
  unfold dirname in *.
  assert (Hs1 := drop_while_suffix is_slash (rev s)).
  destruct (drop_while is_slash (rev s)) as [|a r] eqn:E1.
  - left. reflexivity.
  - cbv zeta in *.
    assert (Hs2 := drop_while_suffix (fun c => negb (is_slash c)) (a :: r)).
    set (r2 := drop_while (fun c => negb (is_slash c)) (a :: r)) in *.
    assert (Hs3 := drop_while_suffix is_slash r2).
    destruct (drop_while is_slash r2) as [|b r3] eqn:E3.
    + left. destruct r2; [|reflexivity].
      destruct Habs as [u Hu]. discriminate.
    + right. exists b, r3. split; [reflexivity|]. split.
      * exact (drop_while_head _ _ E3).
      * eapply is_suffix_trans; [|exact Hs1].
        eapply is_suffix_trans; [exact Hs3 | exact Hs2].
Qed.

Lemma command_substitution_id x :
  newline_free x -> command_substitution x = x.
Proof.
  intros Hx. unfold command_substitution.
  assert (Hrev : newline_free (rev x)) by now apply Forall_rev.
  remember (rev x) as rx eqn:Erx.
  destruct Hrev as [|a r Ha _]; cbn [drop_while].
  - now rewrite Erx, rev_involutive.
  - now rewrite Ha, Erx, rev_involutive.
Qed.

(** From an absolute directory with no newline in its name, the loop
    goes on to [/] or to a directory of the same kind that has a
    component. *)
Lemma parent_named t :
  let s := "/"%char :: t in
  newline_free s ->
  parent s = lit "/" \/
  (absolute (parent s) /\ newline_free (parent s) /\ named (parent s)).
Proof.
  intros s Hnl. subst s. unfold parent. rewrite command_substitution_line.
  destruct (dirname_cases t) as [E|(b & r & E & Hb & Hsuf)].
  - left. now rewrite E.
  - right.
    assert (Hfree : newline_free (dirname ("/"%char :: t))).
    { rewrite E. apply Forall_rev. destruct Hsuf as [p Hp].
      assert (Hall : newline_free (rev ("/"%char :: t)))
        by now apply Forall_rev.
      unfold newline_free in *. rewrite Hp in Hall.
      now apply Forall_app in Hall. }
    rewrite (command_substitution_id Hfree).
    split; [apply (dirname_absolute t)|]. split; [exact Hfree|].
    rewrite E. apply Exists_exists. exists b. split; [|exact Hb].
    rewrite <- in_rev. now left.
Qed.

Lemma named_not_slashes d : named d -> slashes d -> False.
Proof.
  intros Hn Hs. apply Exists_exists in Hn. destruct Hn as (a & Hin & Ha).
  unfold slashes in Hs. rewrite Forall_forall in Hs.
  rewrite (Hs a Hin) in Ha. discriminate.
Qed.

(** The search never tests for a [WORKSPACE] in the root directory,
    under any spelling of it. *)
Lemma find_workspace_spares_root fs1 fs2 fuel dir :
  (forall s, ~ root_workspace s -> fs1 s = fs2 s) ->
  dir = lit "/" \/ (absolute dir /\ newline_free dir /\ named dir) ->
  find_workspace fs1 fuel dir = find_workspace fs2 fuel dir.
Proof.
  intros Hfs. revert dir.
  induction fuel as [|fuel IH]; intros dir Hdir; [reflexivity|].
  rewrite !find_workspace_step.
  destruct (str_eqb dir (lit "/")) eqn:Eroot; [reflexivity|].
  apply str_eqb_neq in Eroot.
  destruct Hdir as [->|([t ->] & Hnl & Hname)]; [contradiction|].
  rewrite (Hfs (("/"%char :: t) ++ lit "/WORKSPACE")).
  - destruct (fs2 _); [reflexivity|]. apply IH.
    now apply parent_named.
  - intros (D & HD & E). apply app_inv_tail in E. subst D.
    exact (named_not_slashes Hname HD).
Qed.
End BazelWrapperFacts.

(** * Sums and products over lists of reals *)

Module WorldFrameFacts.
Import R3 R3Facts RealFacts WorldFrame.
Local Open Scope R_scope.

Lemma fold_left_plus (l : list R) a :
  fold_left Rplus l a = a + fold_right Rplus 0 l.
Proof.
  revert a. induction l as [|x l IH]; intros a; simpl; [ring|].
  rewrite IH. ring.
Qed.

Lemma sum_fold_right (l : list R) : sum l = fold_right Rplus 0 l.
Proof.
  destruct l as [|x l]; [reflexivity|].
  unfold sum. cbn [add Scalar_R]. now rewrite fold_left_plus.
Qed.

Lemma dot_nil_l (v : VectorX R) : dot [] v = 0.
Proof. reflexivity. Qed.

Lemma dot_nil_r (a : VectorX R) : dot a [] = 0.
Proof. destruct a; reflexivity. Qed.

Lemma dot_cons x (a : VectorX R) y v : dot (x :: a) (y :: v) = x * y + dot a v.
Proof. unfold dot. rewrite !sum_fold_right. reflexivity. Qed.

(** [dot] is linear in its first argument, whatever the lengths. *)
Lemma dot_map_linear (A : Type) (f g : A -> R) a b (l : list A) v :
  dot (map (fun j => a * f j + b * g j) l) v
  = a * dot (map f l) v + b * dot (map g l) v.
Proof.
  revert v. induction l as [|x l IH]; intros v; cbn [map].
  - rewrite !dot_nil_l. ring.
  - destruct v as [|y v]; [rewrite !dot_nil_r; ring|].
    rewrite !dot_cons, IH. ring.
Qed.

Lemma dot_map_ext (A : Type) (f g : A -> R) (l : list A) v :
  (forall j, f j = g j) -> dot (map f l) v = dot (map g l) v.
Proof. intros E. now rewrite (map_ext f g E). Qed.

Lemma mvmul_filled n f v : mvmul (filled n f) v = to_VectorX (times n f v).
Proof. reflexivity. Qed.

Lemma inner_coeff3 (d a : vec) :
  inner d a = coeff3 d 0 * coeff3 a 0 + coeff3 d 1 * coeff3 a 1
              + coeff3 d 2 * coeff3 a 2.
Proof. components. reflexivity. Qed.

Lemma inner_times d n f v :
  inner d (times n f v)
  = dot (map (fun j => inner d (f j)) (seq 0 n)) v.
Proof.
  rewrite inner_coeff3. unfold times at 1 2 3. cbn [coeff3].
  rewrite (dot_map_ext (fun j => inner d (f j))
             (fun j => coeff3 d 0 * coeff3 (f j) 0
              + 1 * (coeff3 d 1 * coeff3 (f j) 1 + coeff3 d 2 * coeff3 (f j) 2))).
  2:{ intros j. rewrite inner_coeff3. ring. }
  rewrite dot_map_linear, dot_map_linear. 
  destruct d as [[d1 d2] d3]. cbn [coeff3]. ring.
Qed.

(** [(Delta^T J / phi) . v = Delta . (J v) / phi]. *)
Lemma projection_times d phi n f v :
  dot (map (fun j => inner d (f j) / phi) (seq 0 n)) v
  = inner d (times n f v) / phi.
Proof.
  rewrite inner_times. unfold Rdiv.
  rewrite (dot_map_ext (fun j => inner d (f j) * / phi)
             (fun j => / phi * inner d (f j) + 0 * 0)).
  2:{ intros j. ring. }
  rewrite dot_map_linear. ring.
Qed.

Lemma times_opp n f g v :
  times n (fun j => minus (g j) (f j)) v
  = scale (-1) (times n (fun j => minus (f j) (g j)) v).
Proof.
  unfold times, scale. 
  repeat match goal with |- (_, _) = (_, _) => apply f_equal2 end.
  all: match goal with
       | |- dot (map ?F _) _ = -1 * dot (map ?G _) _ =>
           rewrite (dot_map_ext F (fun j => -1 * G j + 0 * 0));
           [rewrite dot_map_linear; ring|]
       end.
  all: intros j; rewrite !coeff3_minus; ring.
Qed.

Lemma squaredNorm3 (a : vec) : squaredNorm (to_VectorX a) = inner a a.
Proof. components. reflexivity. Qed.

Section BiasEntries.
Variables Context Frame : Type.
Variable e : DistanceEvaluator R Context Frame.
Variable c : Context.

Lemma rel_pos_W_real : rel_pos_W e c = to_VectorX (Delta_W e c).
Proof. unfold rel_pos_W. now rewrite !cast3_real, vsub3. Qed.

Lemma J_rel_v_W_real :
  mvmul (J_rel_W e c) (GetVelocities (plant e) c)
  = to_VectorX (J_rel_v_W e c).
Proof.
  unfold J_rel_W. now rewrite !cast3_real, msub_filled_real, mvmul_filled.
Qed.

Lemma phidot_real :
  dot (as_vector (call EvalFullJacobianDotTimesV_J e c))
      (GetVelocities (plant e) c)
  = inner (Delta_W e c) (J_rel_v_W e c) / length (Delta_W e c).
Proof.
  rewrite EvalFullJacobianDotTimesV_J_entries.
  unfold as_vector. cbn [concat]. rewrite app_nil_r.
  apply projection_times.
Qed.

Lemma bias_entries :
  call EvalFullJacobianDotTimesV e c =
  [inner (J_rel_v_W e c) (J_rel_v_W e c) / length (Delta_W e c)
   + inner (Delta_W e c) (a_rel_W e c) / length (Delta_W e c)
   - inner (Delta_W e c) (J_rel_v_W e c) / length (Delta_W e c)
     * inner (Delta_W e c) (J_rel_v_W e c)
     / (length (Delta_W e c) * length (Delta_W e c))].
Proof.
  rewrite EvalFullJacobianDotTimesV_eq. cbv zeta.
  rewrite phidot_real, J_rel_v_W_real, rel_pos_W_real.
  unfold J_rel_dot_times_v_W. rewrite !cast3_real, vsub3.
  now rewrite squaredNorm3, !dot3, norm3.
Qed.
End BiasEntries.
End WorldFrameFacts.

(** * Scaling, and differences taken the other way round *)

Module R3Metric.
Import R3 R3Facts.
Local Open Scope R_scope.

Lemma inner_scale_l s a b : inner (scale s a) b = s * inner a b.
Proof. by_components. Qed.

Lemma inner_scale_r s a b : inner a (scale s b) = s * inner a b.
Proof. by_components. Qed.

Lemma minus_swap a b : minus b a = scale (-1) (minus a b).
Proof. by_components. Qed.
End R3Metric.

(** * NaN absorbs *)

Module Binary64NanFacts.
Import Binary64Nan.
Local Open Scope float_scope.

Lemma add_nan_l x : nan + x = nan.
Proof.
  apply Prim2SF_inj. rewrite add_spec. change (Prim2SF nan) with S754_nan.
  reflexivity.
Qed.

Lemma mul_nan_l x : nan * x = nan.
Proof.
  apply Prim2SF_inj. rewrite mul_spec. change (Prim2SF nan) with S754_nan.
  reflexivity.
Qed.

Lemma div_nan_r x : x / nan = nan.
Proof.
  apply Prim2SF_inj. rewrite div_spec. change (Prim2SF nan) with S754_nan.
  destruct (Prim2SF x); reflexivity.
Qed.

(** A NaN coordinate makes the norm NaN. *)
Lemma norm_nan (p b : Vector3 float) :
  has_nan p -> norm (vsub (to_VectorX p) (to_VectorX b)) = nan.
Proof.
  destruct p as [[x y] z], b as [[bx by_] bz]. 
  unfold norm, squaredNorm, vsub. cbn.
  intros [-> | [-> | ->]];
    rewrite Binary64Facts.sub_nan_l, mul_nan_l,
      ?add_nan_l, ?Binary64Facts.add_nan_r, ?add_nan_l; reflexivity.
Qed.
End Binary64NanFacts.

(** * The wrapper script: where the search ends and what is executed *)

Module BazelWrapperProperties.
Import Ascii String BazelWrapper BazelWrapperFacts.

(** X1.  Started in an absolute directory, the search loop ends: given
    as many rounds as the directory has characters, or more, it returns
    one and the same directory, which is absolute and a leading part of
    the directory it started in. *)
Theorem search_ends_on_an_ancestor (fs : str -> bool) (pwd : str) :
  absolute pwd ->
  exists found,
    (forall fuel, List.length pwd <= fuel ->
                  find_workspace fs fuel pwd = Some found) /\
    absolute found /\ is_prefix found pwd.
Proof.
  intros Habs.
  destruct (@find_workspace_terminates fs (List.length pwd) pwd Habs
              (le_n _)) as (found & E & Ha & Hp).
  exists found. split; [|split; assumption].
  intros fuel Hle. now apply (find_workspace_more_fuel _ _ E).
Qed.

Lemma search_ends_on_an_ancestor_witness :
  exists found,
    (forall fuel, List.length (PWD checkout) <= fuel ->
                  find_workspace (file_exists checkout) fuel (PWD checkout)
                  = Some found) /\
    absolute found /\ is_prefix found (PWD checkout).
Proof.
  apply (@search_ends_on_an_ancestor (file_exists checkout) (PWD checkout)).
  eexists. reflexivity.
Defined.

(** X2.  The directory the loop returns is the first of the successive
    parents of the start that is [/] or holds a [WORKSPACE]: none of the
    directories tried before it is [/], and none holds one. *)
Theorem search_stops_at_the_first_workspace
    (fs : str -> bool) (fuel : nat) (dir found : str) :
  find_workspace fs fuel dir = Some found ->
  exists k,
    found = Nat.iter k parent dir /\
    (found = lit "/" \/ fs (found ++ lit "/WORKSPACE") = true) /\
    forall i, i < k ->
      Nat.iter i parent dir <> lit "/" /\
      fs (Nat.iter i parent dir ++ lit "/WORKSPACE") = false.
Proof.
  revert dir. induction fuel as [|fuel IH]; intros dir; [discriminate|].
  rewrite find_workspace_step.
  destruct (str_eqb dir (lit "/")) eqn:Eroot.
  { intros [= <-]. exists 0. apply str_eqb_eq in Eroot.
    split; [reflexivity|]. split; [now left | intros; lia]. }
  destruct (fs (dir ++ lit "/WORKSPACE")) eqn:Ews.
  { intros [= <-]. exists 0.
    split; [reflexivity|]. split; [now right | intros; lia]. }
  intros E. destruct (IH _ E) as (k & Ek & Hpost & Hbefore).
  exists (S k). split; [|split; [exact Hpost|]].
  - now rewrite iter_parent_shift.
  - intros [|i] Hi.
    + simpl. split; [now apply str_eqb_neq | exact Ews].
    + rewrite iter_parent_shift. apply Hbefore. lia.
Qed.

Lemma search_stops_at_the_first_workspace_witness :
  exists k,
    lit "/home/u/dairlib" = Nat.iter k parent (PWD checkout) /\
    (lit "/home/u/dairlib" = lit "/" \/
     file_exists checkout (lit "/home/u/dairlib" ++ lit "/WORKSPACE")
     = true) /\
    forall i, i < k ->
      Nat.iter i parent (PWD checkout) <> lit "/" /\
      file_exists checkout
        (Nat.iter i parent (PWD checkout) ++ lit "/WORKSPACE") = false.
Proof.
  apply (@search_stops_at_the_first_workspace (file_exists checkout) 40
           (PWD checkout) (lit "/home/u/dairlib")).
  vm_compute. reflexivity.
Defined.



(** The hypothesis on the directory is needed: from [//], a spelling of
    the root that is not [/], the loop does test [///WORKSPACE]. *)
Example doubled_root_is_probed :
  option_map exec_arguments (script (doubled_root false) 5)
  = Some [lit "--bazelrc=//noros.bazelrc"; lit "build"] /\
  option_map exec_arguments (script (doubled_root true) 5)
  = Some [lit "--bazelrc=///noros.bazelrc"; lit "build"].
Proof. split; reflexivity. Qed.

(** X4.  Started in an absolute directory with no [WORKSPACE] anywhere
    above and ROS support off, the script does not fail: it executes
    bazel with the option [--bazelrc=//noros.bazelrc], a file in the
    root directory, before the caller's arguments. *)
Theorem outside_any_workspace (env : Environment) (fuel : nat) :
  absolute (PWD env) ->
  List.length (PWD env) <= fuel ->
  (forall d, file_exists env (d ++ lit "/WORKSPACE") = false) ->
  DAIRLIB_WITH_ROS env <> lit "ON" ->
  script env fuel
  = Some {| exec_name := script_name env;
            exec_program := BAZEL_REAL env;
            exec_arguments :=
              lit "--bazelrc=//noros.bazelrc" :: arguments env |}.
Proof.
  intros Habs Hfuel Hnone Hros. unfold script.
  destruct (@find_workspace_terminates (file_exists env) fuel (PWD env)
              Habs Hfuel) as (found & E & _ & _).
  rewrite E.
  destruct (find_workspace_post _ _ _ E) as [-> | Hws].
  - apply str_eqb_neq in Hros. now rewrite Hros.
  - now rewrite Hnone in Hws.
Qed.

Lemma outside_any_workspace_witness :
  script stray 40
  = Some {| exec_name := lit "tools/bazel";
            exec_program := lit "/usr/bin/bazel-real";
            exec_arguments :=
              [lit "--bazelrc=//noros.bazelrc"; lit "build"; lit "//..."] |}.
Proof.
  apply (@outside_any_workspace stray 40).
  - eexists. reflexivity.
  - vm_compute. lia.
  - reflexivity.
  - discriminate.
Defined.

(** X5.  Started in an absolute directory, the script always reaches
    its [exec]: the program is [BAZEL_REAL] under the script's own name,
    and the caller's arguments are passed on whole and in order, alone
    when [DAIRLIB_WITH_ROS] is exactly [ON], and otherwise after the one
    option [--bazelrc=D/noros.bazelrc] for a directory [D] that is an
    absolute leading part of the working directory. *)
Theorem arguments_are_passed_through (env : Environment) (fuel : nat) :
  absolute (PWD env) ->
  List.length (PWD env) <= fuel ->
  exists cmd,
    script env fuel = Some cmd /\
    exec_name cmd = script_name env /\
    exec_program cmd = BAZEL_REAL env /\
    (DAIRLIB_WITH_ROS env = lit "ON" ->
     exec_arguments cmd = arguments env) /\
    (DAIRLIB_WITH_ROS env <> lit "ON" ->
     exists D,
       absolute D /\ is_prefix D (PWD env) /\
       exec_arguments cmd
       = (lit "--bazelrc=" ++ D ++ lit "/noros.bazelrc") :: arguments env).
Proof.
  intros Habs Hfuel. unfold script.
  destruct (@find_workspace_terminates (file_exists env) fuel (PWD env)
              Habs Hfuel) as (found & E & Ha & Hp).
  rewrite E.
  destruct (str_eqb (DAIRLIB_WITH_ROS env) (lit "ON")) eqn:Eros.
  - apply str_eqb_eq in Eros.
    eexists. split; [reflexivity|].
    cbn [exec_name exec_program exec_arguments].
    split; [reflexivity|]. split; [reflexivity|]. split.
    + reflexivity.
    + intros Hoff. contradiction.
  - apply str_eqb_neq in Eros.
    eexists. split; [reflexivity|].
    cbn [exec_name exec_program exec_arguments].
    split; [reflexivity|]. split; [reflexivity|]. split.
    + intros Hon. contradiction.
    + intros _. now exists found.
Qed.

Lemma arguments_are_passed_through_witness :
  exists cmd,
    script checkout 40 = Some cmd /\
    exec_name cmd = script_name checkout /\
    exec_program cmd = BAZEL_REAL checkout /\
    (DAIRLIB_WITH_ROS checkout = lit "ON" ->
     exec_arguments cmd = arguments checkout) /\
    (DAIRLIB_WITH_ROS checkout <> lit "ON" ->
     exists D,
       absolute D /\ is_prefix D (PWD checkout) /\
       exec_arguments cmd
       = (lit "--bazelrc=" ++ D ++ lit "/noros.bazelrc")
         :: arguments checkout).
Proof.
  apply (@arguments_are_passed_through checkout 40).
  - eexists. reflexivity.
  - vm_compute. lia.
Defined.
End BazelWrapperProperties.

(** * Further properties of the evaluator *)

(** X9.  Exchanging the two (point, frame) pairs leaves the bias term
    unchanged, for every plant and context and whatever the two target
    distances: every term is even in the exchanged differences. *)
Theorem bias_is_symmetric
    (Context Frame : Type) (P : MultibodyPlant R Context Frame)
    (pt_A : R3.vec) (frame_A : Frame) (pt_B : R3.vec) (frame_B : Frame)
    (distance distance' : R) (c : Context) :
  call (T := R) EvalFullJacobianDotTimesV
    (new_DistanceEvaluator P pt_A frame_A pt_B frame_B distance) c
  = call (T := R) EvalFullJacobianDotTimesV
      (new_DistanceEvaluator P pt_B frame_B pt_A frame_A distance') c.
Proof.
  rewrite !WorldFrameFacts.bias_entries.
  unfold WorldFrame.Delta_W, WorldFrame.J_rel_v_W, WorldFrame.a_rel_W.
  cbn [plant base plant_ new_DistanceEvaluator frame_A_ frame_B_ pt_A_ pt_B_].
  rewrite (WorldFrameFacts.times_opp _
             (fun j => world_jacobian P c frame_A pt_A j)
             (fun j => world_jacobian P c frame_B pt_B j)).
  rewrite (R3Facts.length_opp (world_position P c frame_B pt_B)).
  rewrite (R3Metric.minus_swap (world_position P c frame_A pt_A)
             (world_position P c frame_B pt_B)).
  rewrite (R3Metric.minus_swap
             (translational (CalcBiasSpatialAcceleration P c kV frame_A pt_A
                               (world_frame P) (world_frame P)))).
  rewrite !R3Metric.inner_scale_l, !R3Metric.inner_scale_r.
  f_equal. unfold Rdiv. ring.
Qed.

(** X13.  In binary64, where point A lands exactly on point B (finite
    coordinates), the residual is [0 - distance_]: the residual stays an
    ordinary number at the placement that makes the Jacobian and the
    bias NaN. *)
Theorem residual_at_coincident_points
    (Context Frame : Type) (e : DistanceEvaluator float Context Frame)
    (c : Context) :
  Binary64.finite3 (pt_B_ e) ->
  CalcPointsPositions (plant e) c (frame_A_ e) (pt_A_ e) (frame_B_ e)
    = pt_B_ e ->
  call EvalFull e c = [(0 - distance_ e)%float].
Proof.
  intros HfB HB. rewrite EvalFull_eq. unfold rel_pos_B.
  rewrite !Binary64Facts.cast3_binary64, HB, (Binary64Facts.vsub_self _ HfB).
  reflexivity.
Qed.

Lemma residual_at_coincident_points_witness :
  call EvalFull PointMasses.coincident PointMasses.home = [(-0.5)%float].
Proof.
  apply (@residual_at_coincident_points _ _ PointMasses.coincident
           PointMasses.home).
  - vm_compute. repeat split.
  - vm_compute. reflexivity.
Defined.

(** X14.  In binary64, a NaN among the coordinates the engine returns
    for point A is not caught: the residual is NaN and so is every entry
    of the Jacobian. *)
Theorem nan_position_propagates
    (Context Frame : Type) (e : DistanceEvaluator float Context Frame)
    (c : Context) :
  Binary64Nan.has_nan
    (CalcPointsPositions (plant e) c (frame_A_ e) (pt_A_ e) (frame_B_ e)) ->
  call EvalFull e c = [nan] /\
  call EvalFullJacobian e c = [repeat nan (num_velocities (plant e))].
Proof.
  intros Hnan. split.
  - rewrite EvalFull_eq. unfold rel_pos_B.
    rewrite !Binary64Facts.cast3_binary64, (@Binary64NanFacts.norm_nan _ _ Hnan).
    cbn [sub Scalar_binary64]. now rewrite Binary64Facts.sub_nan_l.
  - rewrite EvalFullJacobian_eq. unfold rel_pos_B.
    rewrite !Binary64Facts.cast3_binary64, (@Binary64NanFacts.norm_nan _ _ Hnan).
    unfold mmul, transpose, mdiv. cbn [map]. rewrite cols_filled, map_map.
    f_equal.
    transitivity (map (fun _ : nat => nan) (seq 0 (num_velocities (plant e)))).
    + apply map_ext. intros j. apply Binary64NanFacts.div_nan_r.
    + now rewrite map_const, length_seq.
Qed.

Lemma nan_position_propagates_witness :
  call EvalFull PointMasses.apart Binary64Nan.lost = [nan] /\
  call EvalFullJacobian PointMasses.apart Binary64Nan.lost = [[nan; nan]].
Proof.
  apply (@nan_position_propagates _ _ PointMasses.apart Binary64Nan.lost).
  vm_compute. left. reflexivity.
Defined.

(** X15.  In binary64, where the norm [phi] that
    [EvalFullJacobianDotTimesV] computes is positive, so is the divisor
    [phi * phi] of its last term: [phi] is a square root, no less than
    [2^-537], and its square does not underflow to zero. *)
Theorem last_divisor_is_positive
    (Context Frame : Type) (e : DistanceEvaluator float Context Frame)
    (c : Context) :
  let phi := norm (rel_pos_W e c) in
  (0 <? phi)%float = true ->
  (0 <? mul phi phi)%float = true.
Proof.
  intros phi Hphi. exact (@Binary64Order.sqrt_square_positive _ Hphi).
Qed.

Lemma last_divisor_is_positive_witness :
  (0 <? mul (norm (rel_pos_W PointMasses.apart PointMasses.home))
            (norm (rel_pos_W PointMasses.apart PointMasses.home)))%float
  = true.
Proof.
  apply (@last_divisor_is_positive _ _ PointMasses.apart PointMasses.home).
  reflexivity.
Defined.
